(** * Por amor al arte V2 — the [Users] application

    A shallow embedding of [Users/models.py]: the model classes become
    records, the database becomes a [Store] of tables (lists of rows), and
    the methods of the classes ([clean], [save], [delete]) become
    computations in a state-and-exception monad over that store.  A method
    may assign to attributes of [self], so every method hands back the
    instance as it leaves it.

    The ORM the classes inherit from is not part of the repository.  What a
    field declaration asks of it ([unique=True], [on_delete=CASCADE],
    [on_delete=PROTECT], a many-to-many table) is written out once, in the
    section on the persistence layer, and every model method is built on
    top of it exactly as the source builds on [super()].

    The wall clock is a field of the store ([now]): a save reads it, and time
    passing is a write to that field from outside.  The timestamp columns of
    [Agrupacion] ([creado_en], [actualizado_en]) are modelled, as times; those
    of the other classes, which no method of the repository reads, are not,
    nor are the fields of [AbstractUser] other than [username] and [email],
    nor the length limits of the text columns ([max_length]), which belong
    to validation and not to [save].  An instance that carries the key of a
    stored row is an instance that was loaded from the store: it has the
    creation time it was loaded with. *)

From stdpp Require Import base numbers option list strings pretty.

(** ** Exceptions and outcomes *)

(** [ValidationError] is raised by the [clean] methods; [IntegrityError] is
    what the database answers to a broken [unique] or foreign-key constraint
    (the specification calls it UniquenessViolation); [ProtectedError] is what
    deleting a row still referenced through an [on_delete=PROTECT] key raises
    (ReferentialIntegrityViolation); [ValueError] is raised when deleting an
    instance that has no key; [DoesNotExist] is raised when a related object
    is read through a foreign key that names no row.  [LoopFuel] is not an
    exception of the program: the [while] loop of [Agrupacion.save] is given
    fuel, and [LoopFuel] is the signal that the fuel ran out before the loop
    condition became false. *)
Inductive exn : Type :=
| ValidationError (message : string)
| IntegrityError
| ProtectedError
| ValueError
| DoesNotExist
| LoopFuel.

Inductive outcome (A : Type) : Type :=
| Return (a : A)
| Raise (e : exn).
Arguments Return {A} a.
Arguments Raise {A} e.

(** ** The model classes

    A time is a number.  An instance of [Agrupacion] always carries its two
    times; on an instance that was never saved they hold whatever they hold,
    and the first save overwrites both. *)

Record CustomUser : Type := mkCustomUser {
  user_pk : option Z;
  username : string;
  email : string }.

Record LineaArtistica : Type := mkLineaArtistica {
  linea_pk : option Z;
  linea_nombre : string;
  linea_descripcion : option string }.

Record Genero : Type := mkGenero {
  genero_pk : option Z;
  genero_nombre : string;
  genero_linea : Z }.

Record ArtistProfile : Type := mkArtistProfile {
  artist_pk : option Z;
  artist_user : Z;
  nombre_artistico : option string;
  artist_descripcion : option string;
  artist_perfil_imagen : option string }.

Record Agrupacion : Type := mkAgrupacion {
  agrupacion_pk : option Z;
  nombre : string;
  slug : string;
  administrador : Z;
  agrupacion_descripcion : option string;
  agrupacion_perfil_imagen : option string;
  creado_en : Z;
  actualizado_en : Z }.

Record ArtistImage : Type := mkArtistImage {
  aimg_pk : option Z;
  aimg_artist : Z;
  aimg_imagen : string;
  aimg_titulo : option string;
  aimg_orden : Z }.

Record GroupImage : Type := mkGroupImage {
  gimg_pk : option Z;
  gimg_agrupacion : Z;
  gimg_imagen : string;
  gimg_titulo : option string;
  gimg_orden : Z }.

Inductive SocialPlatformChoices : Type :=
| FACEBOOK | INSTAGRAM | TWITTER | YOUTUBE | TIKTOK | SPOTIFY | OTHER.

Record ArtistSocial : Type := mkArtistSocial {
  asoc_pk : option Z;
  asoc_artist : Z;
  asoc_plataforma : SocialPlatformChoices;
  asoc_url : string }.

Record GroupSocial : Type := mkGroupSocial {
  gsoc_pk : option Z;
  gsoc_agrupacion : Z;
  gsoc_plataforma : SocialPlatformChoices;
  gsoc_url : string }.

(** ** The database *)

(** One table per model, one table of pairs (owner key, other key) per
    [ManyToManyField], and the reading of the wall clock. *)
Record Store : Type := mkStore {
  users : list CustomUser;
  lineas : list LineaArtistica;
  generos : list Genero;
  artist_profiles : list ArtistProfile;
  artist_generos : list (Z * Z);
  agrupaciones : list Agrupacion;
  agrupacion_miembros : list (Z * Z);
  agrupacion_generos : list (Z * Z);
  artist_images : list ArtistImage;
  group_images : list GroupImage;
  artist_socials : list ArtistSocial;
  group_socials : list GroupSocial;
  now : Z }.

(** ** The monad of model methods *)

Definition M (A : Type) : Type := Store → outcome A * Store.

Definition ret {A} (a : A) : M A := λ st, (Return a, st).
Definition raise {A} (e : exn) : M A := λ st, (Raise e, st).
Definition bind {A B} (m : M A) (k : A → M B) : M B := λ st,
  match m st with
  | (Return a, st') => k a st'
  | (Raise e, st') => (Raise e, st')
  end.
Definition query {A} (table : Store → A) : M A := λ st, (Return (table st), st).
Definition write (f : Store → Store) : M unit := λ st, (Return tt, f st).

Declare Scope orm_scope.
Delimit Scope orm_scope with orm.
Notation "'let*' x ':=' m 'in' k" := (bind m (λ x, k))
  (at level 10, x name, m at level 100, k at level 200, only parsing) : orm_scope.
Notation "m '>>' k" := (bind m (λ _, k))
  (at level 100, k at level 200, right associativity, only parsing) : orm_scope.
Local Open Scope orm_scope.

(** ** Python truthiness of a key: [if self.pk:] *)

Definition truthy (pk : option Z) : bool :=
  match pk with
  | Some k => negb (k =? 0)%Z
  | None => false
  end.

(** ** Querysets *)

Definition qfilter {A} (P : A → Prop) `{∀ x, Decision (P x)} (qs : list A) : list A :=
  filter P qs.
Definition exclude {A} (P : A → Prop) `{∀ x, Decision (P x)} (qs : list A) : list A :=
  filter (λ x, ¬ P x) qs.
Definition count {A} (qs : list A) : nat := length qs.
Definition exists_ {A} (qs : list A) : bool :=
  match qs with [] => false | _ :: _ => true end.

(** Writing one table and leaving the others as they are. *)
Definition set_users (l : list CustomUser) (st : Store) : Store :=
  mkStore l (lineas st) (generos st) (artist_profiles st)
    (artist_generos st) (agrupaciones st) (agrupacion_miembros st) (agrupacion_generos st)
    (artist_images st) (group_images st) (artist_socials st) (group_socials st) (now st).
Definition set_lineas (l : list LineaArtistica) (st : Store) : Store :=
  mkStore (users st) l (generos st) (artist_profiles st)
    (artist_generos st) (agrupaciones st) (agrupacion_miembros st) (agrupacion_generos st)
    (artist_images st) (group_images st) (artist_socials st) (group_socials st) (now st).
Definition set_generos (l : list Genero) (st : Store) : Store :=
  mkStore (users st) (lineas st) l (artist_profiles st)
    (artist_generos st) (agrupaciones st) (agrupacion_miembros st) (agrupacion_generos st)
    (artist_images st) (group_images st) (artist_socials st) (group_socials st) (now st).
Definition set_artist_profiles (l : list ArtistProfile) (st : Store) : Store :=
  mkStore (users st) (lineas st) (generos st) l
    (artist_generos st) (agrupaciones st) (agrupacion_miembros st) (agrupacion_generos st)
    (artist_images st) (group_images st) (artist_socials st) (group_socials st) (now st).
Definition set_artist_generos (l : list (Z * Z)) (st : Store) : Store :=
  mkStore (users st) (lineas st) (generos st) (artist_profiles st)
    l (agrupaciones st) (agrupacion_miembros st) (agrupacion_generos st)
    (artist_images st) (group_images st) (artist_socials st) (group_socials st) (now st).
Definition set_agrupaciones (l : list Agrupacion) (st : Store) : Store :=
  mkStore (users st) (lineas st) (generos st) (artist_profiles st)
    (artist_generos st) l (agrupacion_miembros st) (agrupacion_generos st)
    (artist_images st) (group_images st) (artist_socials st) (group_socials st) (now st).
Definition set_agrupacion_miembros (l : list (Z * Z)) (st : Store) : Store :=
  mkStore (users st) (lineas st) (generos st) (artist_profiles st)
    (artist_generos st) (agrupaciones st) l (agrupacion_generos st)
    (artist_images st) (group_images st) (artist_socials st) (group_socials st) (now st).
Definition set_agrupacion_generos (l : list (Z * Z)) (st : Store) : Store :=
  mkStore (users st) (lineas st) (generos st) (artist_profiles st)
    (artist_generos st) (agrupaciones st) (agrupacion_miembros st) l
    (artist_images st) (group_images st) (artist_socials st) (group_socials st) (now st).
Definition set_artist_images (l : list ArtistImage) (st : Store) : Store :=
  mkStore (users st) (lineas st) (generos st) (artist_profiles st)
    (artist_generos st) (agrupaciones st) (agrupacion_miembros st) (agrupacion_generos st)
    l (group_images st) (artist_socials st) (group_socials st) (now st).
Definition set_group_images (l : list GroupImage) (st : Store) : Store :=
  mkStore (users st) (lineas st) (generos st) (artist_profiles st)
    (artist_generos st) (agrupaciones st) (agrupacion_miembros st) (agrupacion_generos st)
    (artist_images st) l (artist_socials st) (group_socials st) (now st).
Definition set_artist_socials (l : list ArtistSocial) (st : Store) : Store :=
  mkStore (users st) (lineas st) (generos st) (artist_profiles st)
    (artist_generos st) (agrupaciones st) (agrupacion_miembros st) (agrupacion_generos st)
    (artist_images st) (group_images st) l (group_socials st) (now st).
Definition set_group_socials (l : list GroupSocial) (st : Store) : Store :=
  mkStore (users st) (lineas st) (generos st) (artist_profiles st)
    (artist_generos st) (agrupaciones st) (agrupacion_miembros st) (agrupacion_generos st)
    (artist_images st) (group_images st) (artist_socials st) l (now st).

(** Time passes: the clock reads [t]. *)
Definition set_now (t : Z) (st : Store) : Store :=
  mkStore (users st) (lineas st) (generos st) (artist_profiles st)
    (artist_generos st) (agrupaciones st) (agrupacion_miembros st) (agrupacion_generos st)
    (artist_images st) (group_images st) (artist_socials st) (group_socials st) t.

(** ** The persistence layer: [models.Model]

    A [Table] says where the rows of a model live in the store and how the
    primary key of a row is read and written. *)
Record Table (A : Type) : Type := mkTable {
  rows : Store → list A;
  set_rows : list A → Store → Store;
  pk : A → option Z;
  set_pk : option Z → A → A }.
Arguments mkTable {A} _ _ _ _.
Arguments rows {A} _ _.
Arguments set_rows {A} _ _ _.
Arguments pk {A} _ _.
Arguments set_pk {A} _ _ _.

(** The key an auto-increment column hands out: one more than the largest
    key of the table, and 1 on an empty table.  (A database that remembers
    the keys of deleted rows hands out a larger key after a deletion; what
    the statements below use of the new key is that no row of the table has
    it and that it is positive.) *)
Definition next_pk {A} (T : Table A) (tbl : list A) : Z :=
  (1 + foldr Z.max 0 (omap (pk T) tbl))%Z.

(** [UPDATE ... WHERE pk = k] when a row has the key, [INSERT] otherwise. *)
Definition upsert {A} (T : Table A) (self : A) (tbl : list A) : list A :=
  if bool_decide (pk T self ∈ pk T <$> tbl)
  then (λ r, if bool_decide (pk T r = pk T self) then self else r) <$> tbl
  else tbl ++ [self].

(** [Model.save]: an instance without a key receives the next one; the
    database checks the constraints the fields declare ([constraints] answers
    [true] when they hold) and answers [IntegrityError] when one is broken,
    writing nothing. *)
Definition Model_save {A} (T : Table A) (constraints : A → Store → bool)
    (self : A) : M A :=
  let* tbl := query (rows T) in
  let self := match pk T self with
              | Some _ => self
              | None => set_pk T (Some (next_pk T tbl)) self
              end in
  let* ok := query (constraints self) in
  if ok
  then write (λ st, set_rows T (upsert T self (rows T st)) st) >> ret self
  else raise IntegrityError.

(** A [unique=True] column (or a [unique_together] tuple) [col]: no other
    row carries the value. *)
Definition unique {A B} `{EqDecision B} (T : Table A) (col : A → B)
    (self : A) (tbl : list A) : bool :=
  negb (exists_ (exclude (λ r, pk T r = pk T self)
                   (qfilter (λ r, col r = col self) tbl))).

(** A foreign key [fk] into table [T]: the row it names exists. *)
Definition references {A} (T : Table A) (fk : Z) (tbl : list A) : bool :=
  exists_ (qfilter (λ r, pk T r = Some fk) tbl).

(** Reading the related object of a foreign key ([self.artist],
    [self.agrupacion]): the row of [T] whose key is [fk]; [DoesNotExist]
    when no row has that key. *)
Definition related {A} (T : Table A) (fk : Z) : M A :=
  let* tbl := query (rows T) in
  match qfilter (λ r, pk T r = Some fk) tbl with
  | r :: _ => ret r
  | [] => raise DoesNotExist
  end.

(** Whether [Model.save] inserts: the instance has no key, or no row of the
    table has its key (the [UPDATE] touches no row). *)
Definition adding {A} (T : Table A) (self : A) (tbl : list A) : bool :=
  match pk T self with
  | None => true
  | Some _ => negb (bool_decide (pk T self ∈ pk T <$> tbl))
  end.

(** [Model.save] of a model with [auto_now] or [auto_now_add] fields:
    [pre_save] sets them on the instance from the clock, knowing whether the
    save inserts, before the row is written. *)
Definition Model_save_auto {A} (T : Table A) (pre_save : Z → bool → A → A)
    (constraints : A → Store → bool) (self : A) : M A :=
  let* tbl := query (rows T) in
  let* t := query now in
  Model_save T constraints (pre_save t (adding T self tbl) self).

(** What [on_delete] asks of the collector for the rows [related] that point
    at a row about to be deleted: [CASCADE] hands them over to be deleted
    too, [PROTECT] refuses the deletion as soon as there is one. *)
Inductive on_delete_policy : Type := CASCADE | PROTECT.

Definition on_delete {A} (policy : on_delete_policy) (related : list A)
    : M (list A) :=
  match policy with
  | CASCADE => ret related
  | PROTECT => if exists_ related then raise ProtectedError else ret []
  end.

Definition CustomUser_table : Table CustomUser :=
  mkTable users set_users user_pk
    (λ k u, mkCustomUser k (username u) (email u)).
Definition LineaArtistica_table : Table LineaArtistica :=
  mkTable lineas set_lineas linea_pk
    (λ k l, mkLineaArtistica k (linea_nombre l) (linea_descripcion l)).
Definition Genero_table : Table Genero :=
  mkTable generos set_generos genero_pk
    (λ k g, mkGenero k (genero_nombre g) (genero_linea g)).
Definition ArtistProfile_table : Table ArtistProfile :=
  mkTable artist_profiles set_artist_profiles artist_pk
    (λ k p, mkArtistProfile k (artist_user p) (nombre_artistico p)
              (artist_descripcion p) (artist_perfil_imagen p)).
Definition Agrupacion_table : Table Agrupacion :=
  mkTable agrupaciones set_agrupaciones agrupacion_pk
    (λ k a, mkAgrupacion k (nombre a) (slug a) (administrador a)
              (agrupacion_descripcion a) (agrupacion_perfil_imagen a)
              (creado_en a) (actualizado_en a)).
Definition ArtistImage_table : Table ArtistImage :=
  mkTable artist_images set_artist_images aimg_pk
    (λ k i, mkArtistImage k (aimg_artist i) (aimg_imagen i) (aimg_titulo i)
              (aimg_orden i)).
Definition GroupImage_table : Table GroupImage :=
  mkTable group_images set_group_images gimg_pk
    (λ k i, mkGroupImage k (gimg_agrupacion i) (gimg_imagen i) (gimg_titulo i)
              (gimg_orden i)).
Definition ArtistSocial_table : Table ArtistSocial :=
  mkTable artist_socials set_artist_socials asoc_pk
    (λ k s, mkArtistSocial k (asoc_artist s) (asoc_plataforma s) (asoc_url s)).
Definition GroupSocial_table : Table GroupSocial :=
  mkTable group_socials set_group_socials gsoc_pk
    (λ k s, mkGroupSocial k (gsoc_agrupacion s) (gsoc_plataforma s) (gsoc_url s)).

(** The constraints each model declares.
    - [CustomUser]: [email] is [unique=True]; [username] is unique in
      [AbstractUser].
    - [ArtistProfile.user] is a [OneToOneField]: a foreign key that is
      also unique.
    - [Agrupacion.slug] is [unique=True]; [administrador] is a foreign key.
    - [ArtistImage.artist] and [GroupImage.agrupacion] are foreign keys;
      [orden] is a [PositiveSmallIntegerField], whose column carries the
      check [orden >= 0].  (What a database does with a value above the
      range of its small integers differs from one database to the other and
      is not modelled; the statements about a save that returns keep [orden]
      within 0..32767.) *)
Definition CustomUser_constraints (self : CustomUser) (st : Store) : bool :=
  unique CustomUser_table username self (users st)
  && unique CustomUser_table email self (users st).
Definition ArtistProfile_constraints (self : ArtistProfile) (st : Store) : bool :=
  references CustomUser_table (artist_user self) (users st)
  && unique ArtistProfile_table artist_user self (artist_profiles st).
Definition Agrupacion_constraints (self : Agrupacion) (st : Store) : bool :=
  unique Agrupacion_table slug self (agrupaciones st)
  && references CustomUser_table (administrador self) (users st).
Definition ArtistImage_constraints (self : ArtistImage) (st : Store) : bool :=
  references ArtistProfile_table (aimg_artist self) (artist_profiles st)
  && (0 <=? aimg_orden self)%Z.
Definition GroupImage_constraints (self : GroupImage) (st : Store) : bool :=
  references Agrupacion_table (gimg_agrupacion self) (agrupaciones st)
  && (0 <=? gimg_orden self)%Z.

(** ** Images (lines 118–162) *)

Module ArtistImage.

(** [ArtistImage.clean]: at most 5 images per artist.  Both branches read
    [self.artist] first, and filter on the key of the profile they read. *)
Definition clean (self : ArtistImage) : M ArtistImage :=
  let* artist := related ArtistProfile_table (aimg_artist self) in
  let* objects := query artist_images in
  let existing :=
    if truthy (aimg_pk self)
    then count (exclude (λ r, aimg_pk r = aimg_pk self)
                  (qfilter (λ r, Some (aimg_artist r) = artist_pk artist) objects))
    else count (qfilter (λ r, Some (aimg_artist r) = artist_pk artist) objects) in
  if bool_decide (5 ≤ existing)
  then raise (ValidationError "Un artista puede subir máximo 5 imágenes.")
  else ret self.

(** [ArtistImage.save]: [self.clean()] and then [super().save()]. *)
Definition save (self : ArtistImage) : M ArtistImage :=
  let* self := clean self in
  Model_save ArtistImage_table ArtistImage_constraints self.

End ArtistImage.

Module GroupImage.

(** [GroupImage.clean]: at most 5 images per collective.  Both branches
    read [self.agrupacion] first, and filter on the key of the collective
    they read. *)
Definition clean (self : GroupImage) : M GroupImage :=
  let* agrupacion := related Agrupacion_table (gimg_agrupacion self) in
  let* objects := query group_images in
  let existing :=
    if truthy (gimg_pk self)
    then count (exclude (λ r, gimg_pk r = gimg_pk self)
                  (qfilter (λ r, Some (gimg_agrupacion r) = agrupacion_pk agrupacion)
                     objects))
    else count (qfilter (λ r, Some (gimg_agrupacion r) = agrupacion_pk agrupacion)
                  objects) in
  if bool_decide (5 ≤ existing)
  then raise (ValidationError "Una agrupación puede subir máximo 5 imágenes.")
  else ret self.

(** [GroupImage.save]: [self.clean()] and then [super().save()]. *)
Definition save (self : GroupImage) : M GroupImage :=
  let* self := clean self in
  Model_save GroupImage_table GroupImage_constraints self.

End GroupImage.

(** ** Artist profiles (lines 48–74) *)

Module ArtistProfile.

(** [self.generos.count()]: the rows of the many-to-many table that belong
    to [self]. *)
Definition generos_count (self : ArtistProfile) : M nat :=
  let* through := query artist_generos in
  ret (count (qfilter (λ ag, Some ag.1 = artist_pk self) through)).

(** [ArtistProfile.clean]: at most 3 genres, counted only when the profile
    has a key. *)
Definition clean (self : ArtistProfile) : M ArtistProfile :=
  let* generos_count :=
    if truthy (artist_pk self) then generos_count self else ret 0 in
  if bool_decide (3 < generos_count)
  then raise (ValidationError "Un artista puede seleccionar como máximo 3 géneros.")
  else ret self.

(** The class does not override [save]: it is [Model.save]. *)
Definition save (self : ArtistProfile) : M ArtistProfile :=
  Model_save ArtistProfile_table ArtistProfile_constraints self.

End ArtistProfile.

(** ** Collectives (lines 79–113) *)

Definition set_slug (s : string) (a : Agrupacion) : Agrupacion :=
  mkAgrupacion (agrupacion_pk a) (nombre a) s (administrador a)
    (agrupacion_descripcion a) (agrupacion_perfil_imagen a)
    (creado_en a) (actualizado_en a).

(** [DateTimeField.pre_save] of [creado_en] ([auto_now_add]) and of
    [actualizado_en] ([auto_now]): the first is set when the save inserts,
    the second on every save. *)
Definition Agrupacion_pre_save (t : Z) (add : bool) (a : Agrupacion) : Agrupacion :=
  mkAgrupacion (agrupacion_pk a) (nombre a) (slug a) (administrador a)
    (agrupacion_descripcion a) (agrupacion_perfil_imagen a)
    (if add then t else creado_en a) t.

Module Agrupacion.

Section WithSlugify.

(** [django.utils.text.slugify] *)
Variable slugify : string → string.

(** The [while] loop of lines 100–102, entered with the current values of
    [slug] and [counter]; it returns the value of [slug] at the exit. *)
Fixpoint probe (fuel : nat) (base slug' : string) (counter : Z) : M string :=
  match fuel with
  | O => raise LoopFuel
  | S fuel =>
    let* objects := query agrupaciones in
    if exists_ (qfilter (λ r, slug r = slug') objects)
    then probe fuel base (base +:+ "-" +:+ pretty counter) (counter + 1)%Z
    else ret slug'
  end.

(** Lines 96–103: the slug is derived only when the field is empty. *)
Definition derive_slug (self : Agrupacion) : M Agrupacion :=
  if bool_decide (slug self = "")
  then
    let base := String.substring 0 180 (slugify (nombre self)) in
    let* objects := query agrupaciones in
    let* slug' := probe (S (length objects)) base base 1 in
    ret (set_slug slug' self)
  else ret self.

(** [Agrupacion.save] *)
Definition save (self : Agrupacion) : M Agrupacion :=
  let* self := derive_slug self in
  Model_save_auto Agrupacion_table Agrupacion_pre_save Agrupacion_constraints
    self.

End WithSlugify.

(** [self.generos.count()] *)
Definition generos_count (self : Agrupacion) : M nat :=
  let* through := query agrupacion_generos in
  ret (count (qfilter (λ ag, Some ag.1 = agrupacion_pk self) through)).

(** [Agrupacion.clean]: at most 3 genres, checked only when the collective
    has a key. *)
Definition clean (self : Agrupacion) : M Agrupacion :=
  if truthy (agrupacion_pk self)
  then
    let* n := generos_count self in
    if bool_decide (3 < n)
    then raise (ValidationError "Una agrupación puede seleccionar como máximo 3 géneros.")
    else ret self
  else ret self.

End Agrupacion.

(** ** Deletion: [Model.delete] and the [on_delete] declarations *)

(** [DELETE] of the rows whose key is the key of one of [doomed]. *)
Definition delete_rows {A} (T : Table A) (doomed : list A) : M unit :=
  write (λ st,
    set_rows T (exclude (λ r, pk T r ∈ pk T <$> doomed) (rows T st)) st).

(** The rows of the tables that hang from artist profiles.  The foreign keys
    [ArtistImage.artist] (line 119) and [ArtistSocial.artist] (line 177) are
    [on_delete=CASCADE]; so are the two keys of every many-to-many table. *)
Definition collect_ArtistProfile (doomed : list ArtistProfile) : M unit :=
  let ks := omap artist_pk doomed in
  let* imgs := query artist_images in
  let* imagenes := on_delete CASCADE (qfilter (λ i, aimg_artist i ∈ ks) imgs) in
  let* socs := query artist_socials in
  let* redes := on_delete CASCADE (qfilter (λ s, asoc_artist s ∈ ks) socs) in
  delete_rows ArtistImage_table imagenes >>
  delete_rows ArtistSocial_table redes >>
  write (λ st, set_artist_generos
                 (exclude (λ ag, ag.1 ∈ ks) (artist_generos st)) st) >>
  write (λ st, set_agrupacion_miembros
                 (exclude (λ am, am.2 ∈ ks) (agrupacion_miembros st)) st) >>
  delete_rows ArtistProfile_table doomed.

(** The same for collectives: [GroupImage.agrupacion] (line 142) and
    [GroupSocial.agrupacion] (line 186) are [on_delete=CASCADE]. *)
Definition collect_Agrupacion (doomed : list Agrupacion) : M unit :=
  let ks := omap agrupacion_pk doomed in
  let* imgs := query group_images in
  let* imagenes := on_delete CASCADE (qfilter (λ i, gimg_agrupacion i ∈ ks) imgs) in
  let* socs := query group_socials in
  let* redes := on_delete CASCADE (qfilter (λ s, gsoc_agrupacion s ∈ ks) socs) in
  delete_rows GroupImage_table imagenes >>
  delete_rows GroupSocial_table redes >>
  write (λ st, set_agrupacion_miembros
                 (exclude (λ am, am.1 ∈ ks) (agrupacion_miembros st)) st) >>
  write (λ st, set_agrupacion_generos
                 (exclude (λ ag, ag.1 ∈ ks) (agrupacion_generos st)) st) >>
  delete_rows Agrupacion_table doomed.

Module CustomUser.

(** [Model.save] under the constraints of [CustomUser]. *)
Definition save (self : CustomUser) : M CustomUser :=
  Model_save CustomUser_table CustomUser_constraints self.

(** [Model.delete] of a user: [ArtistProfile.user] (line 54) and
    [Agrupacion.administrador] (line 86) are [on_delete=CASCADE]. *)
Definition delete (self : CustomUser) : M unit :=
  match user_pk self with
  | None => raise ValueError
  | Some k =>
    let* profiles := query artist_profiles in
    let* artist_profile :=
      on_delete CASCADE (qfilter (λ p, artist_user p = k) profiles) in
    let* groups := query agrupaciones in
    let* agrupaciones_administradas :=
      on_delete CASCADE (qfilter (λ a, administrador a = k) groups) in
    collect_ArtistProfile artist_profile >>
    collect_Agrupacion agrupaciones_administradas >>
    delete_rows CustomUser_table [self]
  end.

End CustomUser.

Module LineaArtistica.

(** [Model.delete] of an artistic line: [Genero.linea] (line 37) is
    [on_delete=PROTECT]. *)
Definition delete (self : LineaArtistica) : M unit :=
  match linea_pk self with
  | None => raise ValueError
  | Some k =>
    let* gs := query generos in
    let* _ := on_delete PROTECT (qfilter (λ g, genero_linea g = k) gs) in
    delete_rows LineaArtistica_table [self]
  end.

End LineaArtistica.

(** ** [django.utils.text.slugify] on ASCII text

    The function belongs to the framework.  The general results below take
    it as a parameter; this model of it, for text in which every character is
    ASCII, serves the examples.  (A character outside ASCII is first
    decomposed by the framework, which needs the Unicode tables; here it is
    dropped.) *)
Module Text.

Definition code (c : Ascii.ascii) : N := Ascii.N_of_ascii c.

Definition lower (c : Ascii.ascii) : Ascii.ascii :=
  if ((65 <=? code c) && (code c <=? 90))%N
  then Ascii.ascii_of_N (code c + 32)
  else c.

(** [\w] on ASCII: letters, digits and the underscore. *)
Definition is_word (c : Ascii.ascii) : bool :=
  (((48 <=? code c) && (code c <=? 57))
   || ((65 <=? code c) && (code c <=? 90))
   || ((97 <=? code c) && (code c <=? 122))
   || (code c =? 95))%N.

(** [\s] on ASCII: tab to carriage return, the four separators, space. *)
Definition is_space (c : Ascii.ascii) : bool :=
  (((9 <=? code c) && (code c <=? 13))
   || ((28 <=? code c) && (code c <=? 31))
   || (code c =? 32))%N.

Definition hyphen : Ascii.ascii := Ascii.ascii_of_N 45.
Definition is_hyphen (c : Ascii.ascii) : bool := (code c =? 45)%N.

(** [re.sub(r'[-\s]+', '-', value)]: [in_run] says that the previous
    character already belonged to the run being replaced. *)
Fixpoint collapse (in_run : bool) (cs : list Ascii.ascii) : list Ascii.ascii :=
  match cs with
  | [] => []
  | c :: cs =>
    if is_hyphen c || is_space c
    then if in_run then collapse true cs else hyphen :: collapse true cs
    else c :: collapse false cs
  end.

(** [.strip('-_')] *)
Definition strip_char (c : Ascii.ascii) : bool := is_hyphen c || (code c =? 95)%N.

Fixpoint lstrip (cs : list Ascii.ascii) : list Ascii.ascii :=
  match cs with
  | [] => []
  | c :: cs' => if strip_char c then lstrip cs' else cs
  end.

Definition strip (cs : list Ascii.ascii) : list Ascii.ascii :=
  reverse (lstrip (reverse (lstrip cs))).

Definition slugify (value : string) : string :=
  let value := List.filter (λ c, (code c <? 128)%N) (String.list_ascii_of_string value) in
  let value := List.filter (λ c, is_word c || is_space c || is_hyphen c)
                 (lower <$> value) in
  String.string_of_list_ascii (strip (collapse false value)).

End Text.

(** ** Vocabulary of the statements *)

(** The images an owner has in the store, and the siblings of an image:
    the images of its owner other than the image itself. *)
Definition images_of_artist (owner : Z) (st : Store) : list ArtistImage :=
  filter (λ r, aimg_artist r = owner) (artist_images st).
Definition images_of_agrupacion (owner : Z) (st : Store) : list GroupImage :=
  filter (λ r, gimg_agrupacion r = owner) (group_images st).

Definition artist_siblings (self : ArtistImage) (st : Store) : list ArtistImage :=
  filter (λ r, aimg_artist r = aimg_artist self ∧ aimg_pk r ≠ aimg_pk self)
    (artist_images st).
Definition group_siblings (self : GroupImage) (st : Store) : list GroupImage :=
  filter (λ r, gimg_agrupacion r = gimg_agrupacion self ∧ gimg_pk r ≠ gimg_pk self)
    (group_images st).

(** The number [clean] compares with 5 (the variable [existing] of lines
    126–129 and 149–152), for a table [T] of images and the column [owner]
    that names their owner. *)
Definition existing {A} (T : Table A) (owner : A → Z) (self : A)
    (tbl : list A) : nat :=
  if truthy (pk T self)
  then count (exclude (λ r, pk T r = pk T self)
                (qfilter (λ r, owner r = owner self) tbl))
  else count (qfilter (λ r, owner r = owner self) tbl).

(** The values of [orden] every database stores in a
    [PositiveSmallIntegerField]. *)
Definition valid_orden (orden : Z) : Prop := (0 ≤ orden ≤ 32767)%Z.

(** The genres attached to the profile, or to the collective, of key [k]. *)
Definition generos_of_artist (k : Z) (st : Store) : list (Z * Z) :=
  filter (λ ag, ag.1 = k) (artist_generos st).
Definition generos_of_agrupacion (k : Z) (st : Store) : list (Z * Z) :=
  filter (λ ag, ag.1 = k) (agrupacion_generos st).

(** The candidates of the slug probe: [base], [base-1], [base-2], ...; and
    what it means for a slug to be taken in the store. *)
Definition candidate (base : string) (n : nat) : string :=
  match n with
  | O => base
  | S _ => base +:+ "-" +:+ pretty (Z.of_nat n)
  end.

Definition slug_taken (s : string) (st : Store) : Prop :=
  ∃ r, r ∈ agrupaciones st ∧ slug r = s.

(** The keys of the artist profiles of the user of key [k], and of the
    collectives that user administers. *)
Definition profile_keys_of_user (k : Z) (st : Store) : list Z :=
  omap artist_pk (filter (λ p, artist_user p = k) (artist_profiles st)).
Definition agrupacion_keys_of_user (k : Z) (st : Store) : list Z :=
  omap agrupacion_pk (filter (λ a, administrador a = k) (agrupaciones st)).

(** A key as the database hands it out: a number that is not 0. *)
Definition stored_key (k : option Z) : Prop := ∃ z, k = Some z ∧ z ≠ 0%Z.

(** The key column of a stored table: every row has such a key, and no two
    rows share one. *)
Definition primary_key {A} (T : Table A) (tbl : list A) : Prop :=
  Forall (λ r, stored_key (pk T r)) tbl ∧ NoDup (pk T <$> tbl).

(** The row a foreign key names is in its table. *)
Definition row_exists {A} (T : Table A) (fk : Z) (tbl : list A) : Prop :=
  ∃ r, r ∈ tbl ∧ pk T r = Some fk.

(** The two laws of a table: what is written is what is read back. *)
Record table_laws {A} (T : Table A) : Prop := {
  rows_set_rows : ∀ l st, rows T (set_rows T l st) = l;
  pk_set_pk : ∀ k x, pk T (set_pk T k x) = k }.

(** ** A store for the examples

    One user, who has an artist profile and administers one collective;
    [gallery ks] also holds one image per key of [ks] for the profile and
    one per key for the collective.  The clock of every example store reads
    0, and the collectives stored in them were created and last saved at
    time 0. *)
Definition ana : CustomUser := mkCustomUser (Some 1%Z) "ana" "ana@example.org".
Definition perfil : ArtistProfile := mkArtistProfile (Some 1%Z) 1 None None None.
Definition trovadores : Agrupacion :=
  mkAgrupacion (Some 1%Z) "Los Trovadores" "los-trovadores" 1 None None 0 0.

Definition foto (k : option Z) : ArtistImage :=
  mkArtistImage k 1 "artists/images/foto.jpg" None 0.
Definition cartel (k : option Z) : GroupImage :=
  mkGroupImage k 1 "groups/images/cartel.jpg" None 0.

Definition gallery (ks : list Z) : Store :=
  mkStore [ana] [] [] [perfil] [] [trovadores] [] []
    ((λ k, foto (Some k)) <$> ks) ((λ k, cartel (Some k)) <$> ks) [] [] 0.

(** The gallery in which one image of the profile, and one of the
    collective, is stored under the key 0: each of the two owners has
    exactly five images. *)
Definition gallery_key_0 : Store := gallery [0; 1; 2; 3; 4]%Z.

(** The same user, profile and collective, each of the two with four
    genres attached. *)
Definition four_genres : Store :=
  mkStore [ana] [] [] [perfil] [(1, 1); (1, 2); (1, 3); (1, 4)]%Z
    [trovadores] [] [(1, 1); (1, 2); (1, 3); (1, 4)]%Z [] [] [] [] 0.

(** A profile and a collective stored under the key 0, each of the two
    with four genres attached. *)
Definition perfil_0 : ArtistProfile := mkArtistProfile (Some 0%Z) 1 None None None.
Definition trovadores_0 : Agrupacion :=
  mkAgrupacion (Some 0%Z) "Los Trovadores" "los-trovadores" 1 None None 0 0.
Definition four_genres_key_0 : Store :=
  mkStore [ana] [] [] [perfil_0] [(0, 1); (0, 2); (0, 3); (0, 4)]%Z
    [trovadores_0] [] [(0, 1); (0, 2); (0, 3); (0, 4)]%Z [] [] [] [] 0.

(** The store in which [ana] has registered and nothing else is stored. *)
Definition registro : Store :=
  mkStore [ana] [] [] [] [] [] [] [] [] [] [] [] 0.

(** A store in which the slug [los-trovadores-1] is taken and the slug
    [los-trovadores] is not: the one collective is named
    "Los Trovadores 1". *)
Definition trovadores_1 : Agrupacion :=
  mkAgrupacion (Some 1%Z) "Los Trovadores 1" "los-trovadores-1" 1 None None 0 0.
Definition suffix_taken : Store :=
  mkStore [ana] [] [] [] [] [trovadores_1] [] [] [] [] [] [] 0.

(** A new collective of the given name, with an empty slug, administered
    by [ana]. *)
Definition nueva (name : string) : Agrupacion :=
  mkAgrupacion None name "" 1 None None 0 0.

(** A store with two artistic lines, one of them with a genre. *)
Definition musica : LineaArtistica := mkLineaArtistica (Some 1%Z) "Musica" None.
Definition danza : LineaArtistica := mkLineaArtistica (Some 2%Z) "Danza" None.
Definition rock : Genero := mkGenero (Some 1%Z) "Rock" 1.
Definition catalogo : Store :=
  mkStore [ana] [musica; danza] [rock] [] [] [] [] [] [] [] [] [] 0.

(** A store with two users, each with a profile that has an image and a
    social link, and each administering one collective. *)
Definition beto : CustomUser := mkCustomUser (Some 2%Z) "beto" "beto@example.org".
Definition dos_artistas : Store :=
  mkStore [ana; beto] [] []
    [perfil; mkArtistProfile (Some 2%Z) 2 None None None] []
    [trovadores; mkAgrupacion (Some 2%Z) "Duo" "duo" 2 None None 0 0] [(1, 2)]%Z []
    [foto (Some 1%Z); mkArtistImage (Some 2%Z) 2 "artists/images/b.jpg" None 0]
    [cartel (Some 1%Z); mkGroupImage (Some 2%Z) 2 "groups/images/b.jpg" None 0]
    [mkArtistSocial (Some 1%Z) 1 INSTAGRAM "https://example.org/ana";
     mkArtistSocial (Some 2%Z) 2 OTHER "https://example.org/beto"]
    [mkGroupSocial (Some 1%Z) 1 YOUTUBE "https://example.org/trovadores"] 0.

(** A store with two artists: the first has five images, the second one. *)
Definition dos_galerias : Store :=
  mkStore [ana; beto] [] []
    [perfil; mkArtistProfile (Some 2%Z) 2 None None None] [] [] [] []
    ((foto ∘ Some <$> [1; 2; 3; 4; 5]%Z)
       ++ [mkArtistImage (Some 6%Z) 2 "artists/images/b.jpg" None 0])
    [] [] [] 0.

(** ** The classes that override neither [save] nor [delete]

    Their [save] is [Model.save] under the constraints their fields declare:
    [LineaArtistica.nombre] is [unique=True] (line 26); [Genero.linea] is a
    foreign key and [(nombre, linea)] is [unique_together] (lines 37–40);
    [ArtistSocial.artist] and [GroupSocial.agrupacion] are foreign keys
    (lines 177, 186). *)
Definition LineaArtistica_constraints (self : LineaArtistica) (st : Store)
    : bool :=
  unique LineaArtistica_table linea_nombre self (lineas st).
Definition Genero_constraints (self : Genero) (st : Store) : bool :=
  references LineaArtistica_table (genero_linea self) (lineas st)
  && unique Genero_table (λ g, (genero_nombre g, genero_linea g)) self
       (generos st).
Definition ArtistSocial_constraints (self : ArtistSocial) (st : Store) : bool :=
  references ArtistProfile_table (asoc_artist self) (artist_profiles st).
Definition GroupSocial_constraints (self : GroupSocial) (st : Store) : bool :=
  references Agrupacion_table (gsoc_agrupacion self) (agrupaciones st).

Definition LineaArtistica_save (self : LineaArtistica) : M LineaArtistica :=
  Model_save LineaArtistica_table LineaArtistica_constraints self.
Definition Genero_save (self : Genero) : M Genero :=
  Model_save Genero_table Genero_constraints self.
Definition ArtistSocial_save (self : ArtistSocial) : M ArtistSocial :=
  Model_save ArtistSocial_table ArtistSocial_constraints self.
Definition GroupSocial_save (self : GroupSocial) : M GroupSocial :=
  Model_save GroupSocial_table GroupSocial_constraints self.

(** [Model.delete] of a profile and of a collective: the collectors above,
    started from the one row. *)
Definition ArtistProfile_delete (self : ArtistProfile) : M unit :=
  match artist_pk self with
  | None => raise ValueError
  | Some _ => collect_ArtistProfile [self]
  end.
Definition Agrupacion_delete (self : Agrupacion) : M unit :=
  match agrupacion_pk self with
  | None => raise ValueError
  | Some _ => collect_Agrupacion [self]
  end.

(** [Model.delete] of a genre: the rows of the two many-to-many tables
    ([ArtistProfile.generos], line 59, and [Agrupacion.generos], line 91)
    that name the genre go with it; the profiles and collectives stay. *)
Definition Genero_delete (self : Genero) : M unit :=
  match genero_pk self with
  | None => raise ValueError
  | Some k =>
    write (λ st, set_artist_generos
                   (exclude (λ ag, ag.2 = k) (artist_generos st)) st) >>
    write (λ st, set_agrupacion_generos
                   (exclude (λ ag, ag.2 = k) (agrupacion_generos st)) st) >>
    delete_rows Genero_table [self]
  end.

(** ** [SocialPlatformChoices] (lines 167–174): the stored value and the
    label of each member. *)
Definition platform_value (p : SocialPlatformChoices) : string :=
  match p with
  | FACEBOOK => "facebook"
  | INSTAGRAM => "instagram"
  | TWITTER => "twitter"
  | YOUTUBE => "youtube"
  | TIKTOK => "tiktok"
  | SPOTIFY => "spotify"
  | OTHER => "other"
  end.
Definition platform_label (p : SocialPlatformChoices) : string :=
  match p with
  | FACEBOOK => "Facebook"
  | INSTAGRAM => "Instagram"
  | TWITTER => "Twitter"
  | YOUTUBE => "YouTube"
  | TIKTOK => "TikTok"
  | SPOTIFY => "Spotify"
  | OTHER => "Other"
  end.

(** ** Referential integrity: every foreign key of every table, and both
    keys of every many-to-many row, name a stored row. *)
Record referential_integrity (st : Store) : Prop := {
  ri_genero_linea : ∀ g, g ∈ generos st →
    row_exists LineaArtistica_table (genero_linea g) (lineas st);
  ri_artist_user : ∀ p, p ∈ artist_profiles st →
    row_exists CustomUser_table (artist_user p) (users st);
  ri_administrador : ∀ a, a ∈ agrupaciones st →
    row_exists CustomUser_table (administrador a) (users st);
  ri_artist_image : ∀ i, i ∈ artist_images st →
    row_exists ArtistProfile_table (aimg_artist i) (artist_profiles st);
  ri_group_image : ∀ i, i ∈ group_images st →
    row_exists Agrupacion_table (gimg_agrupacion i) (agrupaciones st);
  ri_artist_social : ∀ s, s ∈ artist_socials st →
    row_exists ArtistProfile_table (asoc_artist s) (artist_profiles st);
  ri_group_social : ∀ s, s ∈ group_socials st →
    row_exists Agrupacion_table (gsoc_agrupacion s) (agrupaciones st);
  ri_artist_generos : ∀ ag, ag ∈ artist_generos st →
    row_exists ArtistProfile_table ag.1 (artist_profiles st)
    ∧ row_exists Genero_table ag.2 (generos st);
  ri_agrupacion_miembros : ∀ am, am ∈ agrupacion_miembros st →
    row_exists Agrupacion_table am.1 (agrupaciones st)
    ∧ row_exists ArtistProfile_table am.2 (artist_profiles st);
  ri_agrupacion_generos : ∀ ag, ag ∈ agrupacion_generos st →
    row_exists Agrupacion_table ag.1 (agrupaciones st)
    ∧ row_exists Genero_table ag.2 (generos st) }.

(** * Properties *)

(** ** Tables and keys *)

Lemma ArtistImage_table_laws : table_laws ArtistImage_table.
Proof. by split. Qed.
Lemma GroupImage_table_laws : table_laws GroupImage_table.
Proof. by split. Qed.
Lemma Agrupacion_table_laws : table_laws Agrupacion_table.
Proof. by split. Qed.
Lemma CustomUser_table_laws : table_laws CustomUser_table.
Proof. by split. Qed.

Lemma truthy_stored_key k : truthy k = true ↔ stored_key k.
Proof.
  unfold truthy, stored_key. destruct k as [z|]; split.
  - intros H. exists z. split; [done|]. intros ->. done.
  - intros (z' & [= <-] & Hz). apply negb_true_iff, Z.eqb_neq, Hz.
  - done.
  - by intros (z & ? & _).
Qed.

Lemma foldr_max_bound (ks : list Z) (k : Z) :
  k ∈ ks → (k ≤ foldr Z.max 0 ks)%Z.
Proof.
  induction ks as [|k' ks IH]; [by intros ?%elem_of_nil|].
  intros [->|Hin]%elem_of_cons; simpl; [lia|]. specialize (IH Hin). lia.
Qed.

Lemma next_pk_positive {A} (T : Table A) (tbl : list A) :
  (0 < next_pk T tbl)%Z.
Proof.
  unfold next_pk. generalize (omap (pk T) tbl). intros ks.
  induction ks; simpl; lia.
Qed.

Lemma next_pk_fresh {A} (T : Table A) (tbl : list A) :
  Some (next_pk T tbl) ∉ pk T <$> tbl.
Proof.
  intros (r & Hk & Hr)%list_elem_of_fmap.
  assert (next_pk T tbl ∈ omap (pk T) tbl) as Hin
    by (apply list_elem_of_omap; eauto).
  apply foldr_max_bound in Hin. unfold next_pk in Hin. lia.
Qed.

Lemma upsert_fresh {A} (T : Table A) (self : A) (tbl : list A) :
  pk T self ∉ pk T <$> tbl → upsert T self tbl = tbl ++ [self].
Proof. intros H. unfold upsert. by rewrite bool_decide_eq_false_2. Qed.

(** What [Model.save] computes, written out. *)
Lemma Model_save_eq {A} (T : Table A) (c : A → Store → bool) self st :
  Model_save T c self st =
    let self' := match pk T self with
                 | Some _ => self
                 | None => set_pk T (Some (next_pk T (rows T st))) self
                 end in
    if c self' st
    then (Return self', set_rows T (upsert T self' (rows T st)) st)
    else (Raise IntegrityError, st).
Proof.
  unfold Model_save, bind, query, write, ret, raise. simpl.
  by destruct (c _ st).
Qed.

(** Saving an instance that has no key: the constraints are checked on the
    instance with its new key, and the row is appended. *)
Lemma Model_save_new {A} (T : Table A) (c : A → Store → bool) self st :
  table_laws T → pk T self = None →
  Model_save T c self st =
    let self' := set_pk T (Some (next_pk T (rows T st))) self in
    if c self' st
    then (Return self', set_rows T (rows T st ++ [self']) st)
    else (Raise IntegrityError, st).
Proof.
  intros [_ Hpk] Hnone. unfold Model_save, bind, query, write, ret, raise.
  rewrite Hnone. simpl. destruct (c _ st); [|done].
  rewrite upsert_fresh; [done|]. rewrite Hpk. apply next_pk_fresh.
Qed.

(** [Model.save] raises nothing but [IntegrityError], and then writes
    nothing. *)
Lemma Model_save_raises {A} (T : Table A) (c : A → Store → bool) self st e st' :
  Model_save T c self st = (Raise e, st') → e = IntegrityError ∧ st' = st.
Proof.
  unfold Model_save, bind, query, write, ret, raise. simpl.
  destruct (c _ st); [done|]. by intros [= <- <-].
Qed.

(** [Model.save] of a model with automatic times is [Model.save] of the
    instance with its times set. *)
Lemma Model_save_auto_eq {A} (T : Table A) (pre_save : Z → bool → A → A)
    (c : A → Store → bool) self st :
  Model_save_auto T pre_save c self st
  = Model_save T c (pre_save (now st) (adding T self (rows T st)) self) st.
Proof. done. Qed.

(** ** Counting rows *)

Lemma filter_ext_in {A} (P Q : A → Prop) `{∀ x, Decision (P x)}
    `{∀ x, Decision (Q x)} (l : list A) :
  (∀ x, x ∈ l → P x ↔ Q x) → filter P l = filter Q l.
Proof.
  induction l as [|x l IH]; [done|]. intros Hext.
  rewrite !filter_cons.
  rewrite IH by (intros y Hy; apply Hext; by right).
  assert (P x ↔ Q x) as Hx by (apply Hext; by left).
  destruct (decide (P x)) as [HP|HP], (decide (Q x)) as [HQ|HQ];
    try done; exfalso; tauto.
Qed.

(** Setting one row aside lowers the count of a table with a key column
    by one. *)
Lemma count_without_row {A} (T : Table A) (P : A → Prop)
    `{∀ x, Decision (P x)} (tbl : list A) (r : A) :
  NoDup (pk T <$> tbl) → r ∈ tbl → P r →
  S (length (filter (λ x, P x ∧ pk T x ≠ pk T r) tbl)) = length (filter P tbl).
Proof.
  induction tbl as [|x tbl IH]; [by intros _ ?%elem_of_nil|].
  rewrite fmap_cons. intros [Hx Hnd]%NoDup_cons [->|Hin]%elem_of_cons HP.
  - rewrite !filter_cons.
    destruct (decide (P x ∧ pk T x ≠ pk T x)) as [[_ ?]|_]; [done|].
    destruct (decide (P x)); [|done]. simpl. f_equal.
    f_equal. apply filter_ext_in. intros y Hy. split; [by intros [? _]|].
    intros HPy. split; [done|]. intros Heq. apply Hx. rewrite <-Heq.
    apply list_elem_of_fmap. eauto.
  - rewrite !filter_cons.
    assert (pk T x ≠ pk T r) as Hne.
    { intros Heq. apply Hx. rewrite Heq. apply list_elem_of_fmap. eauto. }
    destruct (decide (P x)), (decide (P x ∧ pk T x ≠ pk T r)); simpl;
      try tauto; try f_equal; by apply IH.
Qed.

Lemma references_true {A} (T : Table A) (fk : Z) (tbl : list A) :
  references T fk tbl = true ↔ row_exists T fk tbl.
Proof.
  unfold references, row_exists, exists_, qfilter. split.
  - destruct (filter _ tbl) as [|r l] eqn:Hf; [done|]. intros _.
    assert (r ∈ filter (λ r, pk T r = Some fk) tbl) as Hr
      by (rewrite Hf; left).
    apply list_elem_of_filter in Hr as [? ?]. eauto.
  - intros (r & Hin & Hk).
    assert (r ∈ filter (λ r, pk T r = Some fk) tbl) as Hr
      by (by apply list_elem_of_filter).
    by destruct (filter _ tbl); [apply elem_of_nil in Hr|].
Qed.

(** ** The image limit *)

(** Unfolding the monad in a goal. *)
Ltac run := unfold bind, query, write, ret, raise; simpl.

Lemma bind_eq {A B} (m : M A) (k : A → M B) (st : Store) :
  bind m k st = match m st with
                | (Return a, st') => k a st'
                | (Raise e, st') => (Raise e, st')
                end.
Proof. done. Qed.

Lemma bind_query {A B} (table : Store → A) (k : A → M B) (st : Store) :
  bind (query table) k st = k (table st) st.
Proof. done. Qed.

(** Reading the related object of a foreign key hands back the row the key
    names, or raises [DoesNotExist]; it writes nothing. *)
Lemma related_cases {A} (T : Table A) (fk : Z) (st : Store) :
  (∃ r, related T fk st = (Return r, st) ∧ pk T r = Some fk
        ∧ references T fk (rows T st) = true)
  ∨ (related T fk st = (Raise DoesNotExist, st)
     ∧ references T fk (rows T st) = false).
Proof.
  unfold related, references, exists_, qfilter. rewrite bind_query.
  destruct (filter _ (rows T st)) as [|r l] eqn:Hf; [by right|].
  left. exists r. split; [done|]. split; [|done].
  assert (r ∈ filter (λ r, pk T r = Some fk) (rows T st)) as Hr
    by (rewrite Hf; left).
  by apply list_elem_of_filter in Hr as [? _].
Qed.

(** [clean] of an image, written out: [DoesNotExist] when the owner is not
    in the store, and otherwise the comparison of [existing] with 5. *)
Lemma ArtistImage_clean_eq (self : ArtistImage) (st : Store) :
  ∃ message,
    ArtistImage.clean self st =
      if references ArtistProfile_table (aimg_artist self) (artist_profiles st)
      then if bool_decide
                (5 ≤ existing ArtistImage_table aimg_artist self (artist_images st))
           then (Raise (ValidationError message), st)
           else (Return self, st)
      else (Raise DoesNotExist, st).
Proof.
  eexists. unfold ArtistImage.clean. rewrite bind_eq.
  destruct (related_cases ArtistProfile_table (aimg_artist self) st)
    as [(r & -> & Hr & Href)|[-> Href]];
    simpl in Href; rewrite Href; [|done].
  rewrite bind_query. simpl in Hr. rewrite Hr.
  unfold existing, qfilter. simpl.
  rewrite (list_filter_iff (λ r, Some (aimg_artist r) = Some (aimg_artist self))
             (λ r, aimg_artist r = aimg_artist self))
    by (intros x; split; congruence).
  by case_bool_decide.
Qed.

Lemma GroupImage_clean_eq (self : GroupImage) (st : Store) :
  ∃ message,
    GroupImage.clean self st =
      if references Agrupacion_table (gimg_agrupacion self) (agrupaciones st)
      then if bool_decide
                (5 ≤ existing GroupImage_table gimg_agrupacion self (group_images st))
           then (Raise (ValidationError message), st)
           else (Return self, st)
      else (Raise DoesNotExist, st).
Proof.
  eexists. unfold GroupImage.clean. rewrite bind_eq.
  destruct (related_cases Agrupacion_table (gimg_agrupacion self) st)
    as [(r & -> & Hr & Href)|[-> Href]];
    simpl in Href; rewrite Href; [|done].
  rewrite bind_query. simpl in Hr. rewrite Hr.
  unfold existing, qfilter. simpl.
  rewrite (list_filter_iff
             (λ r, Some (gimg_agrupacion r) = Some (gimg_agrupacion self))
             (λ r, gimg_agrupacion r = gimg_agrupacion self))
    by (intros x; split; congruence).
  by case_bool_decide.
Qed.

(** [clean] for an image that has no key yet counts all the images of the
    owner. *)
Lemma ArtistImage_clean_new (self : ArtistImage) (st : Store) :
  aimg_pk self = None →
  row_exists ArtistProfile_table (aimg_artist self) (artist_profiles st) →
  ∃ message,
    ArtistImage.clean self st =
      if bool_decide (5 ≤ length (images_of_artist (aimg_artist self) st))
      then (Raise (ValidationError message), st)
      else (Return self, st).
Proof.
  intros Hpk Hown%references_true.
  destruct (ArtistImage_clean_eq self st) as [msg ->]. exists msg.
  rewrite Hown. unfold existing. simpl. by rewrite Hpk.
Qed.

Lemma GroupImage_clean_new (self : GroupImage) (st : Store) :
  gimg_pk self = None →
  row_exists Agrupacion_table (gimg_agrupacion self) (agrupaciones st) →
  ∃ message,
    GroupImage.clean self st =
      if bool_decide (5 ≤ length (images_of_agrupacion (gimg_agrupacion self) st))
      then (Raise (ValidationError message), st)
      else (Return self, st).
Proof.
  intros Hpk Hown%references_true.
  destruct (GroupImage_clean_eq self st) as [msg ->]. exists msg.
  rewrite Hown. unfold existing. simpl. by rewrite Hpk.
Qed.

(** The count [clean] takes is the number of siblings, on a table whose
    rows all have a key that is not 0. *)
Lemma existing_siblings {A} (T : Table A) (owner : A → Z) (self : A)
    (tbl : list A) :
  Forall (λ r, stored_key (pk T r)) tbl →
  existing T owner self tbl
  = length (filter (λ r, owner r = owner self ∧ pk T r ≠ pk T self) tbl).
Proof.
  intros Hkeys. unfold existing, count, exclude, qfilter.
  destruct (truthy (pk T self)) eqn:Ht; f_equal.
  - rewrite list_filter_filter. apply list_filter_iff. intros r. tauto.
  - apply filter_ext_in. intros r Hr. split; [|tauto]. intros Ho.
    split; [done|]. intros Heq.
    rewrite Forall_forall in Hkeys. apply Hkeys, truthy_stored_key in Hr.
    congruence.
Qed.

Lemma ArtistImage_clean_siblings (self : ArtistImage) (st : Store) :
  Forall (λ r, stored_key (aimg_pk r)) (artist_images st) →
  row_exists ArtistProfile_table (aimg_artist self) (artist_profiles st) →
  ∃ message,
    ArtistImage.clean self st =
      if bool_decide (5 ≤ length (artist_siblings self st))
      then (Raise (ValidationError message), st)
      else (Return self, st).
Proof.
  intros Hkeys Hown%references_true.
  destruct (ArtistImage_clean_eq self st) as [msg ->]. exists msg.
  rewrite Hown.
  by rewrite (existing_siblings ArtistImage_table aimg_artist).
Qed.

Lemma GroupImage_clean_siblings (self : GroupImage) (st : Store) :
  Forall (λ r, stored_key (gimg_pk r)) (group_images st) →
  row_exists Agrupacion_table (gimg_agrupacion self) (agrupaciones st) →
  ∃ message,
    GroupImage.clean self st =
      if bool_decide (5 ≤ length (group_siblings self st))
      then (Raise (ValidationError message), st)
      else (Return self, st).
Proof.
  intros Hkeys Hown%references_true.
  destruct (GroupImage_clean_eq self st) as [msg ->]. exists msg.
  rewrite Hown.
  by rewrite (existing_siblings GroupImage_table gimg_agrupacion).
Qed.

(** An image whose owner is not in the store is not saved: reading the
    owner raises [DoesNotExist] before anything is counted or written. *)
Lemma ArtistImage_save_no_owner (self : ArtistImage) (st : Store) :
  ¬ row_exists ArtistProfile_table (aimg_artist self) (artist_profiles st) →
  ArtistImage.save self st = (Raise DoesNotExist, st).
Proof.
  intros Hown. unfold ArtistImage.save. rewrite bind_eq.
  destruct (ArtistImage_clean_eq self st) as [msg ->].
  destruct (references _ _ _) eqn:Href; [|done].
  by apply references_true in Href.
Qed.

Lemma GroupImage_save_no_owner (self : GroupImage) (st : Store) :
  ¬ row_exists Agrupacion_table (gimg_agrupacion self) (agrupaciones st) →
  GroupImage.save self st = (Raise DoesNotExist, st).
Proof.
  intros Hown. unfold GroupImage.save. rewrite bind_eq.
  destruct (GroupImage_clean_eq self st) as [msg ->].
  destruct (references _ _ _) eqn:Href; [|done].
  by apply references_true in Href.
Qed.

(** Saving a new image of an owner that is in the store: refused at 5
    images, handed to [Model.save] below, where the database accepts it
    unless [orden] is negative. *)
Lemma ArtistImage_save_new (self : ArtistImage) (st : Store) :
  aimg_pk self = None →
  row_exists ArtistProfile_table (aimg_artist self) (artist_profiles st) →
  if bool_decide (5 ≤ length (images_of_artist (aimg_artist self) st))
  then ∃ message,
         ArtistImage.save self st = (Raise (ValidationError message), st)
  else ArtistImage.save self st
         = Model_save ArtistImage_table ArtistImage_constraints self st
       ∧ (valid_orden (aimg_orden self) →
          ∃ self' st',
            ArtistImage.save self st = (Return self', st')
            ∧ images_of_artist (aimg_artist self) st'
              = images_of_artist (aimg_artist self) st ++ [self'])
       ∧ ((aimg_orden self < 0)%Z →
          ArtistImage.save self st = (Raise IntegrityError, st)).
Proof.
  intros Hpk Hown. destruct (ArtistImage_clean_new self st Hpk Hown) as [msg Hclean].
  apply references_true in Hown.
  assert (ArtistImage.save self st
          = match ArtistImage.clean self st with
            | (Return self', st') =>
                Model_save ArtistImage_table ArtistImage_constraints self' st'
            | (Raise e, st') => (Raise e, st')
            end) as -> by done.
  rewrite Hclean. case_bool_decide as Hn; [by exists msg|].
  split; [done|].
  rewrite (Model_save_new _ _ _ _ ArtistImage_table_laws Hpk). simpl.
  unfold ArtistImage_constraints. simpl. rewrite Hown. simpl. split.
  - intros [Hlo _]. apply Z.leb_le in Hlo. rewrite Hlo.
    do 2 eexists. split; [done|].
    unfold images_of_artist. simpl. rewrite filter_app, filter_cons. simpl.
    by rewrite decide_True.
  - intros Hneg. apply Z.leb_gt in Hneg. by rewrite Hneg.
Qed.

Lemma GroupImage_save_new (self : GroupImage) (st : Store) :
  gimg_pk self = None →
  row_exists Agrupacion_table (gimg_agrupacion self) (agrupaciones st) →
  if bool_decide (5 ≤ length (images_of_agrupacion (gimg_agrupacion self) st))
  then ∃ message,
         GroupImage.save self st = (Raise (ValidationError message), st)
  else GroupImage.save self st
         = Model_save GroupImage_table GroupImage_constraints self st
       ∧ (valid_orden (gimg_orden self) →
          ∃ self' st',
            GroupImage.save self st = (Return self', st')
            ∧ images_of_agrupacion (gimg_agrupacion self) st'
              = images_of_agrupacion (gimg_agrupacion self) st ++ [self'])
       ∧ ((gimg_orden self < 0)%Z →
          GroupImage.save self st = (Raise IntegrityError, st)).
Proof.
  intros Hpk Hown. destruct (GroupImage_clean_new self st Hpk Hown) as [msg Hclean].
  apply references_true in Hown.
  assert (GroupImage.save self st
          = match GroupImage.clean self st with
            | (Return self', st') =>
                Model_save GroupImage_table GroupImage_constraints self' st'
            | (Raise e, st') => (Raise e, st')
            end) as -> by done.
  rewrite Hclean. case_bool_decide as Hn; [by exists msg|].
  split; [done|].
  rewrite (Model_save_new _ _ _ _ GroupImage_table_laws Hpk). simpl.
  unfold GroupImage_constraints. simpl. rewrite Hown. simpl. split.
  - intros [Hlo _]. apply Z.leb_le in Hlo. rewrite Hlo.
    do 2 eexists. split; [done|].
    unfold images_of_agrupacion. simpl. rewrite filter_app, filter_cons. simpl.
    by rewrite decide_True.
  - intros Hneg. apply Z.leb_gt in Hneg. by rewrite Hneg.
Qed.

(** C1, as the specification states it, fails: with four images stored, the
    save of a fifth image of the same artist (and of the same collective)
    returns normally and the image is written. *)
Lemma fifth_image_is_saved :
  length (images_of_artist 1 (gallery [1; 2; 3; 4]%Z)) = 4
  ∧ ArtistImage.save (foto None) (gallery [1; 2; 3; 4]%Z)
    = (Return (foto (Some 5%Z)),
       set_artist_images (foto ∘ Some <$> [1; 2; 3; 4; 5]%Z)
         (gallery [1; 2; 3; 4]%Z))
  ∧ length (images_of_agrupacion 1 (gallery [1; 2; 3; 4]%Z)) = 4
  ∧ GroupImage.save (cartel None) (gallery [1; 2; 3; 4]%Z)
    = (Return (cartel (Some 5%Z)),
       set_group_images (cartel ∘ Some <$> [1; 2; 3; 4; 5]%Z)
         (gallery [1; 2; 3; 4]%Z)).
Proof. repeat split; vm_compute; reflexivity. Qed.

(** C1, amended.  A new image whose owner is not in the store is not saved:
    reading the owner raises [DoesNotExist].  For a new image whose owner is
    in the store, the save is refused with [ValidationError], and nothing is
    written, exactly when the owner already has 5 images or more; below that
    the save is the generic save, which returns and leaves the owner with
    one image more when [orden] is within 0..32767, and which the database
    refuses with [IntegrityError] when [orden] is negative.  So the first to
    the fifth image of an owner are saved and the sixth is refused.  The
    same holds of [ArtistImage] and of [GroupImage]. *)
Theorem image_save_limit (st : Store) (a : ArtistImage) (g : GroupImage) :
  aimg_pk a = None → gimg_pk g = None →
  (¬ row_exists ArtistProfile_table (aimg_artist a) (artist_profiles st) →
   ArtistImage.save a st = (Raise DoesNotExist, st))
  ∧
  (row_exists ArtistProfile_table (aimg_artist a) (artist_profiles st) →
   if bool_decide (5 ≤ length (images_of_artist (aimg_artist a) st))
   then ∃ message,
          ArtistImage.save a st = (Raise (ValidationError message), st)
   else ArtistImage.save a st
          = Model_save ArtistImage_table ArtistImage_constraints a st
        ∧ (valid_orden (aimg_orden a) →
           ∃ a' st',
             ArtistImage.save a st = (Return a', st')
             ∧ images_of_artist (aimg_artist a) st'
               = images_of_artist (aimg_artist a) st ++ [a'])
        ∧ ((aimg_orden a < 0)%Z →
           ArtistImage.save a st = (Raise IntegrityError, st)))
  ∧
  (¬ row_exists Agrupacion_table (gimg_agrupacion g) (agrupaciones st) →
   GroupImage.save g st = (Raise DoesNotExist, st))
  ∧
  (row_exists Agrupacion_table (gimg_agrupacion g) (agrupaciones st) →
   if bool_decide (5 ≤ length (images_of_agrupacion (gimg_agrupacion g) st))
   then ∃ message,
          GroupImage.save g st = (Raise (ValidationError message), st)
   else GroupImage.save g st
          = Model_save GroupImage_table GroupImage_constraints g st
        ∧ (valid_orden (gimg_orden g) →
           ∃ g' st',
             GroupImage.save g st = (Return g', st')
             ∧ images_of_agrupacion (gimg_agrupacion g) st'
               = images_of_agrupacion (gimg_agrupacion g) st ++ [g'])
        ∧ ((gimg_orden g < 0)%Z →
           GroupImage.save g st = (Raise IntegrityError, st))).
Proof.
  intros Ha Hg. split; [|split; [|split]].
  - apply ArtistImage_save_no_owner.
  - by apply ArtistImage_save_new.
  - apply GroupImage_save_no_owner.
  - by apply GroupImage_save_new.
Qed.

Lemma image_save_limit_witness :
  (∃ message,
     ArtistImage.save (foto None) (gallery [1; 2; 3; 4; 5]%Z)
     = (Raise (ValidationError message), gallery [1; 2; 3; 4; 5]%Z))
  ∧ (∃ message,
       GroupImage.save (cartel None) (gallery [1; 2; 3; 4; 5]%Z)
       = (Raise (ValidationError message), gallery [1; 2; 3; 4; 5]%Z))
  ∧ (∃ a' st',
       ArtistImage.save (foto None) (gallery [1; 2; 3; 4]%Z) = (Return a', st')
       ∧ images_of_artist 1 st'
         = images_of_artist 1 (gallery [1; 2; 3; 4]%Z) ++ [a']).
Proof.
  assert (∀ ks, row_exists ArtistProfile_table 1 (artist_profiles (gallery ks)))
    as Hperfil by (intros ks; exists perfil; split; [left|reflexivity]).
  assert (∀ ks, row_exists Agrupacion_table 1 (agrupaciones (gallery ks)))
    as Hgrupo by (intros ks; exists trovadores; split; [left|reflexivity]).
  split; [|split].
  - exact (proj1 (proj2 (image_save_limit (gallery [1; 2; 3; 4; 5]%Z)
                           (foto None) (cartel None) eq_refl eq_refl))
             (Hperfil _)).
  - exact (proj2 (proj2 (proj2 (image_save_limit (gallery [1; 2; 3; 4; 5]%Z)
                                  (foto None) (cartel None) eq_refl eq_refl)))
             (Hgrupo _)).
  - apply (proj1 (proj2 (proj1 (proj2
             (image_save_limit (gallery [1; 2; 3; 4]%Z)
                (foto None) (cartel None) eq_refl eq_refl)) (Hperfil _)))).
    unfold valid_orden. simpl. lia.
Defined.

(** C2.  The check does not leave out the record being saved when the key
    of that record is 0: [if self.pk:] takes the key 0 for no key.  In the
    store [gallery_key_0] the profile of key 1 has exactly 5 images, of keys
    0 to 4, and each of them has 4 siblings.  Updating the image of key 1
    passes the check; updating the image of key 0 is refused with
    [ValidationError], by [clean] and so by [save], and the same happens
    with the images of the collective. *)
Theorem image_clean_key_zero :
  foto (Some 0%Z) ∈ artist_images gallery_key_0
  ∧ length (images_of_artist 1 gallery_key_0) = 5
  ∧ length (artist_siblings (foto (Some 0%Z)) gallery_key_0) = 4
  ∧ length (artist_siblings (foto (Some 1%Z)) gallery_key_0) = 4
  ∧ ArtistImage.clean (foto (Some 1%Z)) gallery_key_0
    = (Return (foto (Some 1%Z)), gallery_key_0)
  ∧ (∃ message,
       ArtistImage.clean (foto (Some 0%Z)) gallery_key_0
       = (Raise (ValidationError message), gallery_key_0)
       ∧ ArtistImage.save (foto (Some 0%Z)) gallery_key_0
         = (Raise (ValidationError message), gallery_key_0))
  ∧ cartel (Some 0%Z) ∈ group_images gallery_key_0
  ∧ length (images_of_agrupacion 1 gallery_key_0) = 5
  ∧ length (group_siblings (cartel (Some 0%Z)) gallery_key_0) = 4
  ∧ GroupImage.clean (cartel (Some 1%Z)) gallery_key_0
    = (Return (cartel (Some 1%Z)), gallery_key_0)
  ∧ (∃ message,
       GroupImage.clean (cartel (Some 0%Z)) gallery_key_0
       = (Raise (ValidationError message), gallery_key_0)
       ∧ GroupImage.save (cartel (Some 0%Z)) gallery_key_0
         = (Raise (ValidationError message), gallery_key_0)).
Proof.
  repeat (match goal with |- _ ∧ _ => split end);
    try (vm_compute; reflexivity); try (by left);
    eexists; split; vm_compute; reflexivity.
Qed.


Lemma gallery_primary_keys :
  primary_key ArtistImage_table (artist_images (gallery [1; 2; 3; 4; 5]%Z))
  ∧ primary_key GroupImage_table (group_images (gallery [1; 2; 3; 4; 5]%Z)).
Proof.
  split; (split;
    [repeat (apply List.Forall_cons; [by eexists|]); apply List.Forall_nil
    |apply (bool_decide_unpack _); vm_compute; exact I]).
Defined.


(** [Model.save] keeps the key column a key column: the hypothesis of the
    theorem above is an invariant of the store. *)
Lemma Model_save_primary_key {A} (T : Table A) (c : A → Store → bool)
    (self self' : A) (st st' : Store) :
  table_laws T → primary_key T (rows T st) →
  pk T self = None ∨ stored_key (pk T self) →
  Model_save T c self st = (Return self', st') →
  primary_key T (rows T st').
Proof.
  intros [Hrows Hpk] [Hkeys Hnd] Hself. rewrite Model_save_eq. simpl.
  match goal with
  | |- context [c ?x st] => set (self1 := x)
  end.
  assert (stored_key (pk T self1)) as Hk1.
  { unfold self1. destruct (pk T self) as [k|] eqn:Hk.
    - rewrite Hk. by destruct Hself.
    - rewrite Hpk. eexists. split; [done|].
      pose proof (next_pk_positive T (rows T st)). lia. }
  destruct (c self1 st); [|done]. intros [= <- <-]. rewrite Hrows.
  unfold upsert. case_bool_decide as Hin.
  - split.
    + apply Forall_fmap, Forall_forall. intros r Hr. simpl.
      case_bool_decide; [done|].
      rewrite Forall_forall in Hkeys. by apply Hkeys.
    + rewrite <-list_fmap_compose.
      erewrite list_fmap_ext; [exact Hnd|]. intros i r Hr. simpl.
      by case_bool_decide.
  - split.
    + apply Forall_app. split; [done|]. by apply Forall_singleton.
    + rewrite fmap_app. apply NoDup_app. split; [done|]. split.
      * intros k Hk ->%list_elem_of_singleton. done.
      * apply NoDup_singleton.
Qed.

(** ** Validation on the save path *)

(** [clean] reads the store and writes nothing; what it hands back is the
    instance it was given. *)
Lemma ArtistImage_clean_cases (self : ArtistImage) (st : Store) :
  (∃ e, ArtistImage.clean self st = (Raise e, st))
  ∨ ArtistImage.clean self st = (Return self, st).
Proof.
  destruct (ArtistImage_clean_eq self st) as [msg ->].
  destruct (references _ _ _); [|by eauto].
  case_bool_decide; [left|right]; eauto.
Qed.

Lemma GroupImage_clean_cases (self : GroupImage) (st : Store) :
  (∃ e, GroupImage.clean self st = (Raise e, st))
  ∨ GroupImage.clean self st = (Return self, st).
Proof.
  destruct (GroupImage_clean_eq self st) as [msg ->].
  destruct (references _ _ _); [|by eauto].
  case_bool_decide; [left|right]; eauto.
Qed.

(** The loop of [Agrupacion.save] raises nothing of the program's own. *)
Lemma probe_raises fuel base s counter st e st' :
  Agrupacion.probe fuel base s counter st = (Raise e, st') → e = LoopFuel.
Proof.
  revert s counter. induction fuel as [|fuel IH]; intros s counter; simpl.
  - unfold raise. by intros [= <- _].
  - run. destruct (exists_ _); [apply IH|done].
Qed.

Lemma derive_slug_raises slugify self st e st' :
  Agrupacion.derive_slug slugify self st = (Raise e, st') → e = LoopFuel.
Proof.
  unfold Agrupacion.derive_slug. case_bool_decide; [|done].
  rewrite bind_query, bind_eq.
  match goal with
  | |- context [Agrupacion.probe ?f ?b ?s ?c st] =>
      destruct (Agrupacion.probe f b s c st) as [[s'|e'] st''] eqn:Hp
  end; [done|].
  intros [= <- _]. by eapply probe_raises.
Qed.

(** C6.  The image check is part of every image save and comes before the
    write: when [clean] raises, [save] raises the same exception and the
    store is as it was; when [clean] passes, [save] is [Model.save].  The
    genre check is not on the save path: [ArtistProfile.save] and
    [Agrupacion.save] never raise [ValidationError], and they save a profile
    and a collective with four genres that [clean] refuses. *)
Theorem image_validation_runs_on_save :
  (∀ st (a : ArtistImage) e,
     (ArtistImage.clean a st).1 = Raise e →
     ArtistImage.save a st = (Raise e, st))
  ∧ (∀ st (a a' : ArtistImage),
       (ArtistImage.clean a st).1 = Return a' →
       ArtistImage.save a st
       = Model_save ArtistImage_table ArtistImage_constraints a st)
  ∧ (∀ st (g : GroupImage) e,
       (GroupImage.clean g st).1 = Raise e →
       GroupImage.save g st = (Raise e, st))
  ∧ (∀ st (g g' : GroupImage),
       (GroupImage.clean g st).1 = Return g' →
       GroupImage.save g st
       = Model_save GroupImage_table GroupImage_constraints g st)
  ∧ (∀ st (p : ArtistProfile) message,
       (ArtistProfile.save p st).1 ≠ Raise (ValidationError message))
  ∧ (∀ slugify st (ag : Agrupacion) message,
       (Agrupacion.save slugify ag st).1 ≠ Raise (ValidationError message))
  ∧ ((∃ message, ArtistProfile.clean perfil four_genres
                 = (Raise (ValidationError message), four_genres))
     ∧ ArtistProfile.save perfil four_genres = (Return perfil, four_genres))
  ∧ (∀ slugify,
       (∃ message, Agrupacion.clean trovadores four_genres
                   = (Raise (ValidationError message), four_genres))
       ∧ Agrupacion.save slugify trovadores four_genres
         = (Return trovadores, four_genres)).
Proof.
  repeat apply conj.
  - intros st a e. unfold ArtistImage.save, bind.
    destruct (ArtistImage_clean_cases a st) as [[m ->]| ->]; simpl; [|done].
    by intros [= <-].
  - intros st a a'. unfold ArtistImage.save, bind.
    destruct (ArtistImage_clean_cases a st) as [[m ->]| ->]; simpl; done.
  - intros st g e. unfold GroupImage.save, bind.
    destruct (GroupImage_clean_cases g st) as [[m ->]| ->]; simpl; [|done].
    by intros [= <-].
  - intros st g g'. unfold GroupImage.save, bind.
    destruct (GroupImage_clean_cases g st) as [[m ->]| ->]; simpl; done.
  - intros st p message. unfold ArtistProfile.save.
    destruct (Model_save _ _ p st) as [[p'|e] st'] eqn:Hs; simpl; [done|].
    apply Model_save_raises in Hs as [-> _]. done.
  - intros slugify st ag message. unfold Agrupacion.save. rewrite bind_eq.
    destruct (Agrupacion.derive_slug slugify ag st) as [[ag'|e] st'] eqn:Hd.
    + rewrite Model_save_auto_eq.
      destruct (Model_save _ _ _ st') as [[ag''|e] st''] eqn:Hs; simpl;
        [done|].
      apply Model_save_raises in Hs as [-> _]. done.
    + apply derive_slug_raises in Hd as ->. done.
  - eexists. vm_compute. reflexivity.
  - vm_compute. reflexivity.
  - intros slugify. split; [eexists|]; vm_compute; reflexivity.
Qed.

Lemma image_validation_runs_on_save_witness :
  ArtistImage.save (foto None) (gallery [1; 2; 3; 4; 5]%Z)
  = (Raise (ValidationError "Un artista puede subir máximo 5 imágenes."),
     gallery [1; 2; 3; 4; 5]%Z)
  ∧ ArtistImage.save (foto (Some 3%Z)) (gallery [1; 2; 3; 4; 5]%Z)
    = Model_save ArtistImage_table ArtistImage_constraints (foto (Some 3%Z))
        (gallery [1; 2; 3; 4; 5]%Z).
Proof.
  destruct image_validation_runs_on_save as (Hraise & Hpass & _).
  split.
  - apply Hraise. vm_compute. reflexivity.
  - apply (Hpass _ _ (foto (Some 3%Z))). vm_compute. reflexivity.
Defined.

(** ** The genre limit *)

Lemma ArtistProfile_clean_keyed (self : ArtistProfile) (st : Store) (k : Z) :
  artist_pk self = Some k → k ≠ 0%Z →
  ∃ message,
    ArtistProfile.clean self st =
      if bool_decide (3 < length (generos_of_artist k st))
      then (Raise (ValidationError message), st)
      else (Return self, st).
Proof.
  intros Hpk Hk. eexists.
  unfold ArtistProfile.clean, ArtistProfile.generos_count. rewrite Hpk.
  simpl. rewrite (proj2 (Z.eqb_neq k 0)) by done. run.
  unfold count, qfilter, generos_of_artist.
  rewrite (list_filter_iff (λ ag : Z * Z, Some ag.1 = Some k) (λ ag, ag.1 = k))
    by (intros ag; split; congruence).
  by case_bool_decide.
Qed.

Lemma Agrupacion_clean_keyed (self : Agrupacion) (st : Store) (k : Z) :
  agrupacion_pk self = Some k → k ≠ 0%Z →
  ∃ message,
    Agrupacion.clean self st =
      if bool_decide (3 < length (generos_of_agrupacion k st))
      then (Raise (ValidationError message), st)
      else (Return self, st).
Proof.
  intros Hpk Hk. eexists.
  unfold Agrupacion.clean, Agrupacion.generos_count. rewrite Hpk.
  simpl. rewrite (proj2 (Z.eqb_neq k 0)) by done. run.
  unfold count, qfilter, generos_of_agrupacion.
  rewrite (list_filter_iff (λ ag : Z * Z, Some ag.1 = Some k) (λ ag, ag.1 = k))
    by (intros ag; split; congruence).
  by case_bool_decide.
Qed.

(** C4.  The genre check is skipped for a stored profile, and for a stored
    collective, whose key is 0: [if self.pk:] takes the key 0 for no key.
    In the store [four_genres_key_0] the profile and the collective of key 0
    are stored with four genres each, and [clean] returns for both; in the
    store [four_genres], which differs only in that the key is 1, [clean]
    raises [ValidationError] for both. *)
Theorem genre_limit_key_zero :
  perfil_0 ∈ artist_profiles four_genres_key_0
  ∧ artist_pk perfil_0 = Some 0%Z
  ∧ length (generos_of_artist 0 four_genres_key_0) = 4
  ∧ ArtistProfile.clean perfil_0 four_genres_key_0
    = (Return perfil_0, four_genres_key_0)
  ∧ trovadores_0 ∈ agrupaciones four_genres_key_0
  ∧ agrupacion_pk trovadores_0 = Some 0%Z
  ∧ length (generos_of_agrupacion 0 four_genres_key_0) = 4
  ∧ Agrupacion.clean trovadores_0 four_genres_key_0
    = (Return trovadores_0, four_genres_key_0)
  ∧ length (generos_of_artist 1 four_genres) = 4
  ∧ (∃ message, ArtistProfile.clean perfil four_genres
                = (Raise (ValidationError message), four_genres))
  ∧ length (generos_of_agrupacion 1 four_genres) = 4
  ∧ (∃ message, Agrupacion.clean trovadores four_genres
                = (Raise (ValidationError message), four_genres)).
Proof.
  repeat (match goal with |- _ ∧ _ => split end);
    try (vm_compute; reflexivity); try (by left);
    eexists; vm_compute; reflexivity.
Qed.

(** X21.  For a profile or a collective that has a key other than 0,
    [clean] raises [ValidationError] exactly when more than 3 genres are
    attached to it, and writes nothing; for one that has no key, [clean]
    never raises. *)
Theorem genre_limit_on_clean (st : Store) (p : ArtistProfile)
    (ag : Agrupacion) :
  (∀ k, artist_pk p = Some k → k ≠ 0%Z →
     ∃ message,
       ArtistProfile.clean p st =
         if bool_decide (3 < length (generos_of_artist k st))
         then (Raise (ValidationError message), st)
         else (Return p, st))
  ∧ (artist_pk p = None → ArtistProfile.clean p st = (Return p, st))
  ∧ (∀ k, agrupacion_pk ag = Some k → k ≠ 0%Z →
       ∃ message,
         Agrupacion.clean ag st =
           if bool_decide (3 < length (generos_of_agrupacion k st))
           then (Raise (ValidationError message), st)
           else (Return ag, st))
  ∧ (agrupacion_pk ag = None → Agrupacion.clean ag st = (Return ag, st)).
Proof.
  repeat apply conj.
  - intros k. apply ArtistProfile_clean_keyed.
  - intros Hpk. unfold ArtistProfile.clean. by rewrite Hpk.
  - intros k. apply Agrupacion_clean_keyed.
  - intros Hpk. unfold Agrupacion.clean. by rewrite Hpk.
Qed.

Lemma genre_limit_on_clean_witness :
  (∃ message, ArtistProfile.clean perfil four_genres
              = (Raise (ValidationError message), four_genres))
  ∧ (∃ message, Agrupacion.clean trovadores four_genres
                = (Raise (ValidationError message), four_genres))
  ∧ ArtistProfile.clean (mkArtistProfile None 1 None None None) four_genres
    = (Return (mkArtistProfile None 1 None None None), four_genres).
Proof.
  destruct (genre_limit_on_clean four_genres perfil trovadores)
    as (Hp & _ & Hag & _).
  destruct (genre_limit_on_clean four_genres
              (mkArtistProfile None 1 None None None) trovadores)
    as (_ & Hnew & _).
  split; [|split].
  - apply (Hp 1%Z); [reflexivity|lia].
  - apply (Hag 1%Z); [reflexivity|lia].
  - apply Hnew. reflexivity.
Defined.

(** ** The slug probe *)

Lemma append_same_l (s t : string) : s = s +:+ t → t = "".
Proof.
  induction s as [|c s IH]; simpl; [done|]. intros [= H]. by apply IH.
Qed.

Global Instance candidate_inj base : Inj (=) (=) (candidate base).
Proof.
  intros [|i] [|j]; simpl; [done| | |].
  - by intros ?%append_same_l.
  - intros H. symmetry in H. by apply append_same_l in H.
  - intros H%(inj (String.append base))%(inj (String.append "-"))%(inj pretty).
    lia.
Qed.

Lemma exists_qfilter_slug (s : string) (st : Store) :
  exists_ (qfilter (λ r, slug r = s) (agrupaciones st)) = true ↔ slug_taken s st.
Proof.
  unfold exists_, qfilter, slug_taken. split.
  - destruct (filter _ _) as [|r l] eqn:Hf; [done|]. intros _.
    assert (r ∈ filter (λ r, slug r = s) (agrupaciones st)) as Hr
      by (rewrite Hf; left).
    apply list_elem_of_filter in Hr as [? ?]. eauto.
  - intros (r & Hin & Hs).
    assert (r ∈ filter (λ r, slug r = s) (agrupaciones st)) as Hr
      by (by apply list_elem_of_filter).
    by destruct (filter _ _); [apply elem_of_nil in Hr|].
Qed.

(** One turn of the loop, according to whether the current slug is taken. *)
Lemma probe_step_taken fuel base i st :
  slug_taken (candidate base i) st →
  Agrupacion.probe (S fuel) base (candidate base i) (Z.of_nat i + 1) st
  = Agrupacion.probe fuel base (candidate base (S i)) (Z.of_nat (S i) + 1) st.
Proof.
  intros Ht%exists_qfilter_slug. simpl. rewrite bind_query, Ht.
  replace (Z.of_nat i + 1)%Z with (Z.of_nat (S i)) by lia. done.
Qed.

Lemma probe_step_free fuel base s counter st :
  ¬ slug_taken s st →
  Agrupacion.probe (S fuel) base s counter st = (Return s, st).
Proof.
  intros Hf. simpl. rewrite bind_query.
  destruct (exists_ _) eqn:He; [|done].
  by apply exists_qfilter_slug in He.
Qed.

(** Entered at candidate [i], the loop leaves at the first free candidate
    [j], given fuel for the turns in between. *)
Lemma probe_finds base st (j : nat) :
  ¬ slug_taken (candidate base j) st →
  ∀ (i fuel : nat),
    i ≤ j → j - i < fuel →
    (∀ m, i ≤ m < j → slug_taken (candidate base m) st) →
    Agrupacion.probe fuel base (candidate base i) (Z.of_nat i + 1) st
    = (Return (candidate base j), st).
Proof.
  intros Hfree i fuel. revert i.
  induction fuel as [|fuel IH]; intros i Hij Hfuel Htaken; [lia|].
  destruct (decide (i = j)) as [->|Hne].
  - by apply probe_step_free.
  - rewrite probe_step_taken by (apply Htaken; lia).
    apply IH; [lia..|]. intros m Hm. apply Htaken. lia.
Qed.

(** A bounded search on the naturals: either every number up to [n] has the
    property, or there is a first one that has not. *)
Lemma first_failure (P : nat → Prop) `{∀ n, Decision (P n)} (n : nat) :
  (∀ m, m ≤ n → P m) ∨ (∃ j, j ≤ n ∧ ¬ P j ∧ ∀ m, m < j → P m).
Proof.
  induction n as [|n [Hall|(j & Hj & Hnot & Hbelow)]].
  - destruct (decide (P 0)) as [H0|H0].
    + left. intros m Hm. by replace m with 0 by lia.
    + right. exists 0. split; [done|]. split; [done|]. intros m Hm. lia.
  - destruct (decide (P (S n))) as [HS|HS].
    + left. intros m Hm. destruct (decide (m = S n)) as [->|]; [done|].
      apply Hall. lia.
    + right. exists (S n). split; [done|]. split; [done|].
      intros m Hm. apply Hall. lia.
  - right. exists j. split; [lia|]. done.
Qed.

Global Instance slug_taken_dec s st : Decision (slug_taken s st).
Proof.
  destruct (exists_ (qfilter (λ r, slug r = s) (agrupaciones st))) eqn:He.
  - left. by apply exists_qfilter_slug.
  - right. intros Ht%exists_qfilter_slug. congruence.
Defined.

(** Among the first [length + 1] candidates one is free: they are pairwise
    different, and the table has only [length] rows. *)
Lemma free_candidate base st :
  ∃ j, j ≤ length (agrupaciones st)
       ∧ ¬ slug_taken (candidate base j) st
       ∧ ∀ m, m < j → slug_taken (candidate base m) st.
Proof.
  destruct (first_failure (λ m, slug_taken (candidate base m) st)
              (length (agrupaciones st))) as [Hall|Hj]; [|done].
  exfalso.
  set (cands := candidate base <$> seq 0 (S (length (agrupaciones st)))).
  assert (cands ⊆+ slug <$> agrupaciones st) as Hsub.
  { apply NoDup_submseteq.
    - apply NoDup_fmap_2; [apply _|apply NoDup_seq].
    - intros s (m & -> & Hm%elem_of_seq)%list_elem_of_fmap.
      destruct (Hall m) as (r & Hr & <-); [lia|].
      by apply list_elem_of_fmap_2. }
  apply submseteq_length in Hsub.
  unfold cands in Hsub. rewrite !length_fmap, length_seq in Hsub. lia.
Qed.

(** The probe started as [save] starts it: it returns the first free
    candidate, whatever fuel above the size of the table it is given. *)
Lemma probe_from_base base st :
  ∃ n, ¬ slug_taken (candidate base n) st
       ∧ (∀ m, m < n → slug_taken (candidate base m) st)
       ∧ ∀ fuel, length (agrupaciones st) < fuel →
           Agrupacion.probe fuel base base 1 st
           = (Return (candidate base n), st).
Proof.
  destruct (free_candidate base st) as (n & Hn & Hfree & Htaken).
  exists n. split; [done|]. split; [done|]. intros fuel Hfuel.
  apply (probe_finds base st n Hfree 0 fuel); [lia..|].
  intros m Hm. apply Htaken. lia.
Qed.

Lemma derive_slug_empty slugify self st :
  slug self = "" →
  Agrupacion.derive_slug slugify self st
  = match Agrupacion.probe (S (length (agrupaciones st)))
            (String.substring 0 180 (slugify (nombre self)))
            (String.substring 0 180 (slugify (nombre self))) 1 st with
    | (Return s, st') => (Return (set_slug s self), st')
    | (Raise e, st') => (Raise e, st')
    end.
Proof.
  intros Hs. unfold Agrupacion.derive_slug.
  rewrite bool_decide_eq_true_2 by done. by rewrite bind_query, bind_eq.
Qed.

(** ** Saving a collective *)

Lemma exists_spec {A} (l : list A) : exists_ l = true ↔ ∃ x, x ∈ l.
Proof.
  destruct l as [|x l]; simpl; split; try done.
  - by intros [x ?%elem_of_nil].
  - intros _. exists x. left.
Qed.

Lemma unique_spec {A B} `{EqDecision B} (T : Table A) (col : A → B)
    (self : A) (tbl : list A) :
  unique T col self tbl = true
  ↔ ∀ r, r ∈ tbl → col r = col self → pk T r = pk T self.
Proof.
  unfold unique, exclude, qfilter. rewrite negb_true_iff. split.
  - intros Hex r Hr Hcol. destruct (decide (pk T r = pk T self)); [done|].
    assert (exists_ (filter (λ x, ¬ pk T x = pk T self)
                       (filter (λ r, col r = col self) tbl)) = true) as Ht.
    { apply exists_spec. exists r. by rewrite !list_elem_of_filter. }
    congruence.
  - intros Hall. apply not_true_is_false.
    intros (r & Hx)%exists_spec.
    apply list_elem_of_filter in Hx as (Hne & (Hcol & Hr)%list_elem_of_filter).
    by apply Hne, Hall.
Qed.

Lemma upsert_elem {A} (T : Table A) (self : A) (tbl : list A) :
  self ∈ upsert T self tbl.
Proof.
  unfold upsert. case_bool_decide as Hin.
  - apply list_elem_of_fmap in Hin as (r & Hk & Hr).
    apply list_elem_of_fmap. exists r. split; [|done].
    by rewrite bool_decide_eq_true_2.
  - apply elem_of_app. right. left.
Qed.

(** The first free candidate is unique. *)
Lemma first_free_unique base st (n n' : nat) :
  ¬ slug_taken (candidate base n) st →
  (∀ m, m < n → slug_taken (candidate base m) st) →
  ¬ slug_taken (candidate base n') st →
  (∀ m, m < n' → slug_taken (candidate base m) st) →
  n = n'.
Proof.
  intros Hn Hbelow Hn' Hbelow'.
  destruct (Nat.lt_trichotomy n n') as [Hlt|[->|Hlt]]; [|done|].
  - by apply Hbelow' in Hlt.
  - by apply Hbelow in Hlt.
Qed.

Lemma upsert_inv {A} (T : Table A) (self r : A) (tbl : list A) :
  r ∈ upsert T self tbl → r ∈ tbl ∨ r = self.
Proof.
  unfold upsert. case_bool_decide.
  - intros (x & -> & Hx)%list_elem_of_fmap. case_bool_decide; eauto.
  - intros [?|?%list_elem_of_singleton]%elem_of_app; eauto.
Qed.

(** C10.  For every store and every collective saved with an empty slug,
    the probing loop terminates: given any fuel above the number of stored
    collectives it returns, and what it returns is the first candidate of
    [base], [base-1], [base-2], ... that no stored collective has, [base]
    being the slugified name cut to 180 characters.  That candidate is the
    slug of the collective [save] hands to [Model.save], which is otherwise
    the collective it was given; it differs from every slug of the store,
    and it is the slug of the row that a returning save has written.  The
    save raises nothing but what the database answers. *)
Theorem slug_probe_first_free (slugify : string → string) (st : Store)
    (self : Agrupacion) :
  slug self = "" →
  ∃ (n : nat) (self1 : Agrupacion),
    let base := String.substring 0 180 (slugify (nombre self)) in
    (∀ fuel, length (agrupaciones st) < fuel →
       Agrupacion.probe fuel base base 1 st = (Return (candidate base n), st))
    ∧ Agrupacion.derive_slug slugify self st = (Return self1, st)
    ∧ slug self1 = candidate base n
    ∧ self1 = mkAgrupacion (agrupacion_pk self) (nombre self) (slug self1)
                (administrador self) (agrupacion_descripcion self)
                (agrupacion_perfil_imagen self) (creado_en self)
                (actualizado_en self)
    ∧ Agrupacion.save slugify self st
      = Model_save_auto Agrupacion_table Agrupacion_pre_save
          Agrupacion_constraints self1 st
    ∧ (∀ m, m < n → slug_taken (candidate base m) st)
    ∧ (∀ r, r ∈ agrupaciones st → slug r ≠ slug self1)
    ∧ (∀ self' st',
         Agrupacion.save slugify self st = (Return self', st') →
         slug self' = candidate base n
         ∧ self' ∈ agrupaciones st'
         ∧ ∀ r, r ∈ agrupaciones st → slug r ≠ slug self')
    ∧ (∀ e st',
         Agrupacion.save slugify self st = (Raise e, st') →
         e = IntegrityError ∧ st' = st).
Proof.
  intros Hs.
  destruct (probe_from_base (String.substring 0 180 (slugify (nombre self))) st)
    as (n & Hfree & Htaken & Hprobe).
  set (base := String.substring 0 180 (slugify (nombre self))) in *.
  exists n, (set_slug (candidate base n) self). simpl.
  assert (Agrupacion.derive_slug slugify self st
          = (Return (set_slug (candidate base n) self), st)) as Hderive.
  { rewrite derive_slug_empty by done. fold base. rewrite Hprobe by lia. done. }
  assert (Agrupacion.save slugify self st
          = Model_save_auto Agrupacion_table Agrupacion_pre_save
              Agrupacion_constraints (set_slug (candidate base n) self) st)
    as Hsave.
  { unfold Agrupacion.save. by rewrite bind_eq, Hderive. }
  assert (∀ r, r ∈ agrupaciones st → slug r ≠ candidate base n) as Hnew.
  { intros r Hr Heq. apply Hfree. by exists r. }
  repeat (match goal with |- _ ∧ _ => split end); try done.
  - intros self' st'. rewrite Hsave, Model_save_auto_eq, Model_save_eq.
    cbv zeta.
    match goal with
    | |- context [Agrupacion_constraints ?x st] => set (self2 := x)
    end.
    assert (slug self2 = candidate base n) as Hslug
      by (unfold self2; simpl; destruct (agrupacion_pk self); done).
    destruct (Agrupacion_constraints self2 st); [|done].
    intros [= <- <-]. rewrite Hslug. split; [done|]. split; [|done].
    simpl. apply upsert_elem.
  - intros e st'. rewrite Hsave, Model_save_auto_eq.
    apply Model_save_raises.
Qed.

Lemma slug_probe_first_free_witness :
  ∃ (n : nat) (self1 : Agrupacion),
    Agrupacion.derive_slug Text.slugify
      (mkAgrupacion None "Los Trovadores" "" 1 None None 0 0) (gallery [])
    = (Return self1, gallery [])
    ∧ slug self1 = candidate "los-trovadores" n
    ∧ ∀ r, r ∈ agrupaciones (gallery []) → slug r ≠ slug self1.
Proof.
  destruct (slug_probe_first_free Text.slugify (gallery [])
              (mkAgrupacion None "Los Trovadores" "" 1 None None 0 0) eq_refl)
    as (n & self1 & _ & Hderive & Hslug & _ & _ & _ & Hfree & _).
  exists n, self1. split; [exact Hderive|]. split; [exact Hslug|exact Hfree].
Defined.

(** Saving a collective with an empty slug, when its administrator exists:
    the row is written with the first free candidate as its slug, and the
    table holds nothing else that it did not hold before. *)
Lemma Agrupacion_save_empty_slug slugify (self : Agrupacion) (st : Store)
    (n : nat) :
  slug self = "" →
  row_exists CustomUser_table (administrador self) (users st) →
  ¬ slug_taken (candidate (String.substring 0 180 (slugify (nombre self))) n) st →
  (∀ m, m < n →
     slug_taken (candidate (String.substring 0 180 (slugify (nombre self))) m) st) →
  ∃ self' st',
    Agrupacion.save slugify self st = (Return self', st')
    ∧ slug self' = candidate (String.substring 0 180 (slugify (nombre self))) n
    ∧ self' ∈ agrupaciones st'
    ∧ (∀ r, r ∈ agrupaciones st' → r ∈ agrupaciones st ∨ r = self')
    ∧ users st' = users st.
Proof.
  intros Hs Hadmin%references_true Hfree Htaken.
  destruct (probe_from_base (String.substring 0 180 (slugify (nombre self))) st)
    as (n' & Hfree' & Htaken' & Hprobe).
  assert (n' = n) as -> by (by eapply first_free_unique).
  unfold Agrupacion.save.
  rewrite bind_eq, derive_slug_empty, Hprobe by (done || lia).
  rewrite Model_save_auto_eq, Model_save_eq. cbv zeta.
  match goal with
  | |- context [Agrupacion_constraints ?x st] => set (self1 := x)
  end.
  assert (slug self1
          = candidate (String.substring 0 180 (slugify (nombre self))) n
          ∧ administrador self1 = administrador self) as [Hslug Hadm]
    by (unfold self1; simpl; destruct (agrupacion_pk self); done).
  unfold Agrupacion_constraints. rewrite Hadm, Hadmin, andb_true_r.
  rewrite (proj2 (unique_spec Agrupacion_table slug _ _)).
  - do 2 eexists. split; [done|]. split; [done|]. simpl.
    split; [apply upsert_elem|]. split; [intros r; apply upsert_inv|done].
  - intros r Hr Heq. destruct Hfree. exists r. by rewrite Heq.
Qed.

(** C3, as the specification states it, fails in its second half.  In a
    store where no collective has the slug [los-trovadores] but one (named
    "Los Trovadores 1") has the slug [los-trovadores-1], the first save of
    "Los Trovadores" receives [los-trovadores] and the second receives
    [los-trovadores-2]. *)
Lemma second_slug_skips_taken_suffix :
  Agrupacion.save Text.slugify (nueva "Los Trovadores 1") registro
  = (Return trovadores_1, suffix_taken)
  ∧ (∀ r, r ∈ agrupaciones suffix_taken → slug r ≠ "los-trovadores")
  ∧ Agrupacion.save Text.slugify (nueva "Los Trovadores") suffix_taken
    = (Return (mkAgrupacion (Some 2%Z) "Los Trovadores" "los-trovadores" 1
                 None None 0 0),
       set_agrupaciones
         [trovadores_1;
          mkAgrupacion (Some 2%Z) "Los Trovadores" "los-trovadores" 1 None None 0 0]
         suffix_taken)
  ∧ Agrupacion.save Text.slugify (nueva "Los Trovadores")
      (set_agrupaciones
         [trovadores_1;
          mkAgrupacion (Some 2%Z) "Los Trovadores" "los-trovadores" 1 None None 0 0]
         suffix_taken)
    = (Return (mkAgrupacion (Some 3%Z) "Los Trovadores" "los-trovadores-2" 1
                 None None 0 0),
       set_agrupaciones
         [trovadores_1;
          mkAgrupacion (Some 2%Z) "Los Trovadores" "los-trovadores" 1 None None 0 0;
          mkAgrupacion (Some 3%Z) "Los Trovadores" "los-trovadores-2" 1 None None 0 0]
         suffix_taken).
Proof.
  split; [vm_compute; reflexivity|]. split.
  - intros r Hr. apply list_elem_of_In in Hr. simpl in Hr.
    destruct Hr as [<-|[]]. done.
  - split; vm_compute; reflexivity.
Qed.

(** C3, amended.  A collective named "Los Trovadores", saved with an
    empty slug by an existing administrator into a store where no collective
    has the slug [los-trovadores], is stored with that slug.  A second such
    collective saved next is stored with the slug [los-trovadores-1] when no
    collective of the store has that slug either. *)
Theorem los_trovadores_slugs (st : Store) (a b : Agrupacion) :
  nombre a = "Los Trovadores" → slug a = "" →
  nombre b = "Los Trovadores" → slug b = "" →
  row_exists CustomUser_table (administrador a) (users st) →
  row_exists CustomUser_table (administrador b) (users st) →
  ¬ slug_taken "los-trovadores" st →
  ∃ a' st',
    Agrupacion.save Text.slugify a st = (Return a', st')
    ∧ slug a' = "los-trovadores"
    ∧ a' ∈ agrupaciones st'
    ∧ (¬ slug_taken "los-trovadores-1" st →
       ∃ b' st'',
         Agrupacion.save Text.slugify b st' = (Return b', st'')
         ∧ slug b' = "los-trovadores-1"
         ∧ b' ∈ agrupaciones st'').
Proof.
  intros Hna Hsa Hnb Hsb Hadm_a Hadm_b Hfree0.
  destruct (Agrupacion_save_empty_slug Text.slugify a st 0 Hsa Hadm_a)
    as (a' & st' & Hsave & Hslug & Hin & Hrows & Husers).
  { by rewrite Hna. }
  { intros m Hm. lia. }
  rewrite Hna in Hslug. exists a', st'.
  split; [done|]. split; [done|]. split; [done|]. intros Hfree1.
  destruct (Agrupacion_save_empty_slug Text.slugify b st' 1 Hsb)
    as (b' & st'' & Hsave' & Hslug' & Hin' & _).
  - by rewrite Husers.
  - rewrite Hnb. intros (r & Hr & Hs).
    destruct (Hrows r Hr) as [Hold| ->].
    + apply Hfree1. by exists r.
    + by rewrite Hslug in Hs.
  - rewrite Hnb. intros m Hm. replace m with 0 by lia. by exists a'.
  - rewrite Hnb in Hslug'. by exists b', st''.
Qed.

Lemma los_trovadores_slugs_witness :
  ∃ a' st',
    Agrupacion.save Text.slugify (nueva "Los Trovadores") registro
    = (Return a', st')
    ∧ slug a' = "los-trovadores"
    ∧ a' ∈ agrupaciones st'
    ∧ ∃ b' st'',
        Agrupacion.save Text.slugify (nueva "Los Trovadores") st'
        = (Return b', st'')
        ∧ slug b' = "los-trovadores-1"
        ∧ b' ∈ agrupaciones st''.
Proof.
  assert (row_exists CustomUser_table 1 (users registro)) as Hadm
    by (exists ana; split; [left|reflexivity]).
  assert (∀ s, ¬ slug_taken s registro) as Hfree
    by (intros s (r & Hr & _); by apply elem_of_nil in Hr).
  destruct (los_trovadores_slugs registro
              (nueva "Los Trovadores") (nueva "Los Trovadores")
              eq_refl eq_refl eq_refl eq_refl Hadm Hadm (Hfree _))
    as (a' & st' & Hsave & Hslug & Hin & Hsecond).
  exists a', st'. split; [exact Hsave|]. split; [exact Hslug|].
  split; [exact Hin|]. apply Hsecond, Hfree.
Defined.

(** [Agrupacion.clean] hands back the instance it was given and writes
    nothing. *)
Lemma Agrupacion_clean_cases (self : Agrupacion) (st : Store) :
  Agrupacion.clean self st = (Return self, st)
  ∨ ∃ message, Agrupacion.clean self st = (Raise (ValidationError message), st).
Proof.
  unfold Agrupacion.clean, Agrupacion.generos_count.
  destruct (truthy _); [|by left]. run. case_bool_decide; [right|left]; eauto.
Qed.

(** C5, as the specification states it, fails for the two times of the
    record.  A collective with the slug [los-trovadores], created with the
    times 3 and 5 and saved when the clock reads 9, is persisted with the
    times 9 and 9; the stored collective [trovadores], whose times are 0 and
    0, saved again when the clock reads 9, is persisted with the times 0
    and 9.  The slug is as given in both. *)
Lemma save_overwrites_times :
  Agrupacion.save Text.slugify
    (mkAgrupacion None "Los Trovadores" "los-trovadores" 1 None None 3 5)
    (set_now 9 registro)
  = (Return (mkAgrupacion (Some 1%Z) "Los Trovadores" "los-trovadores" 1
               None None 9 9),
     set_agrupaciones
       [mkAgrupacion (Some 1%Z) "Los Trovadores" "los-trovadores" 1 None None 9 9]
       (set_now 9 registro))
  ∧ trovadores ∈ agrupaciones (set_now 9 (gallery []))
  ∧ actualizado_en trovadores = 0%Z
  ∧ Agrupacion.save Text.slugify trovadores (set_now 9 (gallery []))
    = (Return (mkAgrupacion (Some 1%Z) "Los Trovadores" "los-trovadores" 1
                 None None 0 9),
       set_agrupaciones
         [mkAgrupacion (Some 1%Z) "Los Trovadores" "los-trovadores" 1 None None 0 9]
         (set_now 9 (gallery []))).
Proof.
  split; [vm_compute; reflexivity|]. split; [left|].
  split; vm_compute; reflexivity.
Qed.

(** C5, amended.  A collective saved with a slug that is not empty goes to
    [Model.save] as it is: the slug is not derived again.  When the save
    returns, the row is in the table with the name, slug, administrator,
    description and image it was given (and the key it had, or the next key
    when it had none); its two times are not the given ones:
    [actualizado_en] is the reading of the clock, and so is [creado_en] when
    the row is inserted, while the [creado_en] of a row that is updated is
    the given one.  When another row has the same slug the save fails with
    [IntegrityError] and writes nothing: no suffix is tried.  Validation
    ([clean]) of any collective, whatever its slug, hands the collective
    back as it was and writes nothing. *)
Theorem save_keeps_given_slug (slugify : string → string) (st : Store)
    (self : Agrupacion) :
  slug self ≠ "" →
  Agrupacion.derive_slug slugify self st = (Return self, st)
  ∧ Agrupacion.save slugify self st
    = Model_save_auto Agrupacion_table Agrupacion_pre_save
        Agrupacion_constraints self st
  ∧ (∀ self' st',
       Agrupacion.save slugify self st = (Return self', st') →
       self' ∈ agrupaciones st'
       ∧ (∃ k, self' = mkAgrupacion (Some k) (nombre self) (slug self)
                         (administrador self) (agrupacion_descripcion self)
                         (agrupacion_perfil_imagen self)
                         (if adding Agrupacion_table self (agrupaciones st)
                          then now st else creado_en self)
                         (now st))
       ∧ (agrupacion_pk self ≠ None → agrupacion_pk self' = agrupacion_pk self)
       ∧ (∀ r, r ∈ agrupaciones st' → r ∈ agrupaciones st ∨ r = self')
       ∧ now st' = now st)
  ∧ (∀ r, r ∈ agrupaciones st → slug r = slug self →
       agrupacion_pk r ≠ agrupacion_pk self →
       Agrupacion.save slugify self st = (Raise IntegrityError, st))
  ∧ (∀ ag : Agrupacion,
       Agrupacion.clean ag st = (Return ag, st)
       ∨ ∃ message,
           Agrupacion.clean ag st = (Raise (ValidationError message), st)).
Proof.
  intros Hs.
  assert (Agrupacion.derive_slug slugify self st = (Return self, st)) as Hd.
  { unfold Agrupacion.derive_slug. by rewrite bool_decide_eq_false_2. }
  assert (Agrupacion.save slugify self st
          = Model_save_auto Agrupacion_table Agrupacion_pre_save
              Agrupacion_constraints self st) as Hsave.
  { unfold Agrupacion.save. by rewrite bind_eq, Hd. }
  split; [done|]. split; [done|].
  rewrite Hsave, Model_save_auto_eq, Model_save_eq. cbv zeta.
  match goal with
  | |- context [Agrupacion_constraints ?x st] => set (self1 := x)
  end.
  split; [|split; [|intros ag; apply Agrupacion_clean_cases]].
  - intros self' st'. destruct (Agrupacion_constraints _ st); [|done].
    intros [= <- <-]. split; [apply upsert_elem|].
    split; [|split; [|split; [intros r; apply upsert_inv|done]]].
    + unfold self1. destruct self as [[k|] ? ? ? ? ? ? ?]; simpl; eauto.
    + unfold self1. destruct self as [[k|] ? ? ? ? ? ? ?]; simpl; done.
  - intros r Hr Hslug Hpk.
    assert (unique Agrupacion_table slug self1 (agrupaciones st) = false)
      as Hu; [|unfold Agrupacion_constraints; by rewrite Hu].
    apply not_true_is_false. intros Hu.
    pose proof (proj1 (unique_spec _ _ _ _) Hu r Hr) as Heq.
    assert (slug self1 = slug self) as Hs1
      by (unfold self1; simpl; destruct (agrupacion_pk self); done).
    rewrite Hs1 in Heq. specialize (Heq Hslug). simpl in Heq.
    unfold self1 in Heq. simpl in Heq.
    destruct (agrupacion_pk self) as [k|] eqn:Hk; simpl in Heq.
    { rewrite Hk in Heq. done. }
    apply (next_pk_fresh Agrupacion_table (agrupaciones st)).
    rewrite <-Heq. by apply list_elem_of_fmap_2.
Qed.

Lemma save_keeps_given_slug_witness :
  Agrupacion.save Text.slugify trovadores (set_now 9 (gallery []))
  = Model_save_auto Agrupacion_table Agrupacion_pre_save Agrupacion_constraints
      trovadores (set_now 9 (gallery []))
  ∧ (∀ self' st',
       Agrupacion.save Text.slugify trovadores (set_now 9 (gallery []))
       = (Return self', st') →
       self' ∈ agrupaciones st'
       ∧ ∃ k, self' = mkAgrupacion (Some k) "Los Trovadores" "los-trovadores" 1
                        None None 0 9)
  ∧ Agrupacion.save Text.slugify
      (mkAgrupacion None "Los Trovadores" "los-trovadores" 1 None None 0 0)
      (gallery [])
    = (Raise IntegrityError, gallery []).
Proof.
  split; [|split].
  - apply (save_keeps_given_slug Text.slugify (set_now 9 (gallery []))
             trovadores). done.
  - intros self' st' Hsave.
    destruct (save_keeps_given_slug Text.slugify (set_now 9 (gallery []))
                trovadores) as (_ & _ & Hrow & _); [done|].
    destruct (Hrow self' st' Hsave) as (Hin & Hfields & _).
    split; [exact Hin|exact Hfields].
  - destruct (save_keeps_given_slug Text.slugify (gallery [])
                (mkAgrupacion None "Los Trovadores" "los-trovadores" 1 None None 0 0))
      as (_ & _ & _ & Hclash & _); [done|].
    apply (Hclash trovadores); [left|reflexivity|done].
Defined.

(** ** Unique columns *)

(** A row that would carry the next key clashes with every stored row that
    has the same value in a unique column. *)
Lemma unique_clash_new {A B} `{EqDecision B} (T : Table A) (col : A → B)
    (self r : A) (tbl : list A) :
  pk T self = Some (next_pk T tbl) → r ∈ tbl → col r = col self →
  unique T col self tbl = false.
Proof.
  intros Hpk Hr Hcol. apply not_true_is_false. intros Hu.
  pose proof (proj1 (unique_spec _ _ _ _) Hu r Hr Hcol) as Heq.
  apply (next_pk_fresh T tbl). rewrite <-Hpk, <-Heq.
  by apply list_elem_of_fmap_2.
Qed.

(** C9.  Creating a user whose email is the email of a stored user fails
    with [IntegrityError] and writes nothing, whatever the two user names
    are.  (A new user whose email and user name are those of no stored user is
    appended to the table.) *)
Theorem duplicate_email_rejected (st : Store) (u : CustomUser) :
  user_pk u = None →
  ((∃ other, other ∈ users st ∧ email other = email u) →
   CustomUser.save u st = (Raise IntegrityError, st))
  ∧ ((∀ other, other ∈ users st →
        email other ≠ email u ∧ username other ≠ username u) →
     ∃ k, CustomUser.save u st
          = (Return (mkCustomUser (Some k) (username u) (email u)),
             set_users (users st ++ [mkCustomUser (Some k) (username u) (email u)])
               st)).
Proof.
  intros Hpk. unfold CustomUser.save.
  rewrite (Model_save_new _ _ _ _ CustomUser_table_laws Hpk). simpl.
  unfold CustomUser_constraints. split.
  - intros (other & Hin & Hemail).
    rewrite (unique_clash_new CustomUser_table email _ other) by done.
    by rewrite andb_false_r.
  - intros Hfresh. eexists.
    rewrite !(proj2 (unique_spec CustomUser_table _ _ _)); [done|..].
    + intros r Hr Heq. by destruct (Hfresh r Hr) as [? _].
    + intros r Hr Heq. by destruct (Hfresh r Hr) as [_ ?].
Qed.

Lemma duplicate_email_rejected_witness :
  CustomUser.save (mkCustomUser None "anita" "ana@example.org") registro
  = (Raise IntegrityError, registro).
Proof.
  destruct (duplicate_email_rejected registro
              (mkCustomUser None "anita" "ana@example.org") eq_refl)
    as [Hclash _].
  apply Hclash. exists ana. split; [left|reflexivity].
Defined.

(** ** Deletion *)

(** C7.  Deleting an artistic line that a genre references fails with
    [ProtectedError] and leaves the store, the line and its genres included,
    as it was; deleting one that no genre references returns, the rows of
    that key are gone from the table of lines and every other table is
    untouched. *)
Theorem linea_delete_protected (st : Store) (l : LineaArtistica) (k : Z) :
  linea_pk l = Some k →
  ((∃ g, g ∈ generos st ∧ genero_linea g = k) →
   LineaArtistica.delete l st = (Raise ProtectedError, st))
  ∧ ((∀ g, g ∈ generos st → genero_linea g ≠ k) →
     LineaArtistica.delete l st
     = (Return tt,
        set_lineas (filter (λ r, linea_pk r ≠ Some k) (lineas st)) st)).
Proof.
  intros Hpk. unfold LineaArtistica.delete. rewrite Hpk.
  rewrite bind_query, bind_eq. unfold on_delete. split.
  - intros (g & Hg & Hk).
    rewrite (proj2 (exists_spec _)); [done|].
    exists g. by apply list_elem_of_filter.
  - intros Hnone.
    destruct (exists_ _) eqn:He.
    + apply exists_spec in He as (g & (Hk & Hg)%list_elem_of_filter).
      by apply Hnone in Hg.
    + unfold ret, delete_rows, write, exclude. simpl. rewrite Hpk.
      do 2 f_equal. apply list_filter_iff. intros r.
      rewrite list_elem_of_singleton. done.
Qed.

Lemma linea_delete_protected_witness :
  LineaArtistica.delete musica catalogo = (Raise ProtectedError, catalogo)
  ∧ LineaArtistica.delete danza catalogo
    = (Return tt, set_lineas [musica] catalogo).
Proof.
  split.
  - apply (linea_delete_protected catalogo musica 1%Z eq_refl).
    exists rock. split; [left|reflexivity].
  - apply (linea_delete_protected catalogo danza 2%Z eq_refl).
    intros g Hg. apply list_elem_of_singleton in Hg as ->. done.
Defined.

(** Rows deleted by key: none of the rows selected by [P] is left; and on a
    table without repeated keys, every other row is. *)
Lemma delete_rows_gone {A} (T : Table A) (P : A → Prop)
    `{∀ x, Decision (P x)} (tbl : list A) (r : A) :
  r ∈ filter (λ x, pk T x ∉ pk T <$> filter P tbl) tbl → ¬ P r.
Proof.
  intros [Hk Hr]%list_elem_of_filter HP. apply Hk.
  apply list_elem_of_fmap_2. by apply list_elem_of_filter.
Qed.

Lemma key_determines_row {A} (T : Table A) (tbl : list A) (x y : A) :
  NoDup (pk T <$> tbl) → x ∈ tbl → y ∈ tbl → pk T x = pk T y → x = y.
Proof.
  induction tbl as [|z tbl IH]; [by intros _ ?%elem_of_nil|].
  rewrite fmap_cons.
  intros [Hz Hnd]%NoDup_cons [->|Hx]%elem_of_cons [->|Hy]%elem_of_cons Heq;
    [done| | |by apply IH].
  - destruct Hz. rewrite Heq. by apply list_elem_of_fmap_2.
  - destruct Hz. rewrite <-Heq. by apply list_elem_of_fmap_2.
Qed.

Lemma delete_rows_frame {A} (T : Table A) (P : A → Prop)
    `{∀ x, Decision (P x)} (tbl : list A) :
  NoDup (pk T <$> tbl) →
  filter (λ x, pk T x ∉ pk T <$> filter P tbl) tbl = filter (λ x, ¬ P x) tbl.
Proof.
  intros Hnd. apply filter_ext_in. intros r Hr. split.
  - intros Hk HP. apply Hk, list_elem_of_fmap_2. by apply list_elem_of_filter.
  - intros HnP (y & Hk & (HP & Hy)%list_elem_of_filter)%list_elem_of_fmap.
    apply HnP. by rewrite (key_determines_row T tbl r y).
Qed.

(** C8.  Deleting a user returns normally and cascades: afterwards no user
    of that key, no artist profile of the user, no image and no social link
    of such a profile, no collective the user administers, and no image and
    no social link of such a collective is stored.  Artistic lines and genres
    are untouched, and on tables without repeated keys exactly the rows just
    named are removed from the tables of users, profiles, profile images and
    collectives. *)
Theorem user_delete_cascades (st : Store) (u : CustomUser) (k : Z) :
  user_pk u = Some k →
  ∃ st',
    CustomUser.delete u st = (Return tt, st')
    ∧ (∀ x, x ∈ users st' → user_pk x ≠ Some k)
    ∧ (∀ p, p ∈ artist_profiles st' → artist_user p ≠ k)
    ∧ (∀ i, i ∈ artist_images st' → aimg_artist i ∉ profile_keys_of_user k st)
    ∧ (∀ s, s ∈ artist_socials st' → asoc_artist s ∉ profile_keys_of_user k st)
    ∧ (∀ g, g ∈ agrupaciones st' → administrador g ≠ k)
    ∧ (∀ i, i ∈ group_images st' →
         gimg_agrupacion i ∉ agrupacion_keys_of_user k st)
    ∧ (∀ s, s ∈ group_socials st' →
         gsoc_agrupacion s ∉ agrupacion_keys_of_user k st)
    ∧ lineas st' = lineas st
    ∧ generos st' = generos st
    ∧ users st' = filter (λ x, user_pk x ≠ Some k) (users st)
    ∧ (NoDup (artist_pk <$> artist_profiles st) →
       artist_profiles st'
       = filter (λ p, artist_user p ≠ k) (artist_profiles st))
    ∧ (NoDup (aimg_pk <$> artist_images st) →
       artist_images st'
       = filter (λ i, aimg_artist i ∉ profile_keys_of_user k st)
           (artist_images st))
    ∧ (NoDup (agrupacion_pk <$> agrupaciones st) →
       agrupaciones st'
       = filter (λ g, administrador g ≠ k) (agrupaciones st)).
Proof.
  intros Hpk. unfold CustomUser.delete. rewrite Hpk.
  unfold collect_ArtistProfile, collect_Agrupacion, delete_rows, on_delete.
  run. eexists. split; [reflexivity|]. simpl. rewrite Hpk.
  unfold exclude, qfilter, profile_keys_of_user, agrupacion_keys_of_user.
  repeat apply conj.
  - intros x [Hx _]%list_elem_of_filter Heq. apply Hx. rewrite Heq. left.
  - intros p Hp. by apply (delete_rows_gone ArtistProfile_table) in Hp.
  - intros i Hi. by apply (delete_rows_gone ArtistImage_table) in Hi.
  - intros s Hs. by apply (delete_rows_gone ArtistSocial_table) in Hs.
  - intros g Hg. by apply (delete_rows_gone Agrupacion_table) in Hg.
  - intros i Hi. by apply (delete_rows_gone GroupImage_table) in Hi.
  - intros s Hs. by apply (delete_rows_gone GroupSocial_table) in Hs.
  - done.
  - done.
  - apply list_filter_iff. intros x. by rewrite list_elem_of_singleton.
  - intros Hnd. by rewrite (delete_rows_frame ArtistProfile_table).
  - intros Hnd. by rewrite (delete_rows_frame ArtistImage_table).
  - intros Hnd. by rewrite (delete_rows_frame Agrupacion_table).
Qed.

Lemma user_delete_cascades_witness :
  ∃ st',
    CustomUser.delete ana dos_artistas = (Return tt, st')
    ∧ artist_profiles st' = [mkArtistProfile (Some 2%Z) 2 None None None]
    ∧ artist_images st'
      = [mkArtistImage (Some 2%Z) 2 "artists/images/b.jpg" None 0]
    ∧ agrupaciones st' = [mkAgrupacion (Some 2%Z) "Duo" "duo" 2 None None 0 0]
    ∧ ∀ s, s ∈ artist_socials st' → asoc_artist s ∉ [1%Z].
Proof.
  destruct (user_delete_cascades dos_artistas ana 1%Z eq_refl)
    as (st' & Hdel & _ & _ & _ & Hsoc & _ & _ & _ & _ & _ & _ & Hp & Hi & Hg).
  exists st'. split; [exact Hdel|].
  split; [|split; [|split]].
  - rewrite Hp; [reflexivity|].
    apply (bool_decide_unpack _). vm_compute. exact I.
  - rewrite Hi; [reflexivity|].
    apply (bool_decide_unpack _). vm_compute. exact I.
  - rewrite Hg; [reflexivity|].
    apply (bool_decide_unpack _). vm_compute. exact I.
  - exact Hsoc.
Defined.

(** * Further properties *)

(** ** The image limit as an invariant of the store *)

Lemma length_filter_and {A} (P Q : A → Prop) `{∀ x, Decision (P x)}
    `{∀ x, Decision (Q x)} (l : list A) :
  length (filter (λ x, P x ∧ Q x) l) ≤ length (filter P l).
Proof.
  induction l as [|x l IH]; [done|]. rewrite !filter_cons.
  destruct (decide (P x ∧ Q x)), (decide (P x)); simpl; try tauto; lia.
Qed.

Lemma filter_none {A} (P : A → Prop) `{∀ x, Decision (P x)} (l : list A) :
  (∀ x, x ∈ l → ¬ P x) → filter P l = [].
Proof.
  induction l as [|x l IH]; [done|]. intros Hno. rewrite filter_cons.
  rewrite decide_False by (apply Hno; left). apply IH.
  intros y Hy. apply Hno. by right.
Qed.

Lemma count_key_le_1 {A} (T : Table A) (k : option Z) (tbl : list A) :
  NoDup (pk T <$> tbl) → length (filter (λ r, pk T r = k) tbl) ≤ 1.
Proof.
  induction tbl as [|x tbl IH]; [simpl; lia|].
  rewrite fmap_cons. intros [Hx Hnd]%NoDup_cons. rewrite filter_cons.
  destruct (decide (pk T x = k)) as [<-|]; [|by apply IH].
  simpl. rewrite filter_none; [done|].
  intros r Hr Heq. apply Hx. rewrite <-Heq.
  by apply list_elem_of_fmap_2.
Qed.

(** After [upsert], the rows that satisfy [P] are the rows that did and were
    not replaced, and the written row if it does. *)
Lemma count_upsert {A} (T : Table A) (P : A → Prop) `{∀ x, Decision (P x)}
    (self : A) (tbl : list A) :
  NoDup (pk T <$> tbl) →
  length (filter P (upsert T self tbl))
  ≤ length (filter (λ r, P r ∧ pk T r ≠ pk T self) tbl)
    + (if decide (P self) then 1 else 0).
Proof.
  intros Hnd. unfold upsert. case_bool_decide as Hin.
  - pose proof (count_key_le_1 T (pk T self) tbl Hnd) as Hone.
    clear Hin Hnd. induction tbl as [|x tbl IH]; [simpl; lia|].
    rewrite fmap_cons, !filter_cons. rewrite filter_cons in Hone.
    case_bool_decide as Hk.
    + rewrite decide_True in Hone by done. simpl in Hone.
      rewrite (decide_False (P := P x ∧ _)) by tauto.
      assert (length (filter (λ r, pk T r = pk T self) tbl) ≤ 1) as Hone'
        by lia.
      specialize (IH Hone').
      assert (filter (λ r, pk T r = pk T self) tbl = []) as Hnil
        by (apply length_zero_iff_nil; lia).
      assert (filter P ((λ r, if bool_decide (pk T r = pk T self)
                              then self else r) <$> tbl)
              = filter (λ r, P r ∧ pk T r ≠ pk T self) tbl) as ->.
      { clear IH Hone Hone'.
        assert (∀ r, r ∈ tbl → pk T r ≠ pk T self) as Hno
          by (intros r Hr Heq;
              exact (filter_nil_not_elem_of _ _ r Hnil Heq Hr)).
        clear Hnil. induction tbl as [|y tbl IH]; [done|].
        rewrite fmap_cons, !filter_cons.
        assert (pk T y ≠ pk T self) as Hy by (apply Hno; left).
        rewrite bool_decide_eq_false_2 by done.
        rewrite IH by (intros r Hr; apply Hno; by right).
        destruct (decide (P y)), (decide (P y ∧ pk T y ≠ pk T self));
          try done; tauto. }
      destruct (decide (P self)); simpl; lia.
    + rewrite decide_False in Hone by done. specialize (IH Hone).
      destruct (decide (P x)), (decide (P x ∧ pk T x ≠ pk T self));
        simpl; try tauto; lia.
  - rewrite filter_app, length_app.
    rewrite (filter_ext_in P (λ r, P r ∧ pk T r ≠ pk T self) tbl).
    + rewrite filter_cons, filter_nil. destruct (decide (P self)); simpl; lia.
    + intros r Hr. split; [|tauto]. intros HP. split; [done|].
      intros Heq. apply Hin. rewrite <-Heq. by apply list_elem_of_fmap_2.
Qed.

(** What a returning image save has checked and written. *)
Lemma ArtistImage_save_returns (a a' : ArtistImage) (st st' : Store) :
  ArtistImage.save a st = (Return a', st') →
  length (filter (λ r, aimg_artist r = aimg_artist a' ∧ aimg_pk r ≠ aimg_pk a')
            (artist_images st)) < 5
  ∧ row_exists ArtistProfile_table (aimg_artist a') (artist_profiles st)
  ∧ st' = set_artist_images (upsert ArtistImage_table a' (artist_images st)) st.
Proof.
  unfold ArtistImage.save. rewrite bind_eq.
  destruct (ArtistImage_clean_eq a st) as [msg ->].
  destruct (references _ _ _); [|done].
  case_bool_decide as Hex; [done|]. rewrite Model_save_eq. simpl.
  match goal with
  | |- context [ArtistImage_constraints ?x st] => set (self1 := x)
  end.
  destruct (ArtistImage_constraints self1 st) eqn:Hc; [|done].
  apply andb_true_iff in Hc as [Hc _].
  intros [= <- <-]. split; [|split; [by apply references_true|done]].
  assert (aimg_artist self1 = aimg_artist a) as ->
    by (unfold self1; by destruct (aimg_pk a)).
  eapply Nat.le_lt_trans; [|apply Nat.nle_gt, Hex].
  unfold existing, count, exclude, qfilter, self1. simpl.
  destruct (aimg_pk a) as [k|] eqn:Hk; simpl; rewrite ?Hk.
  - destruct (k =? 0)%Z; simpl.
    + apply length_filter_and.
    + rewrite list_filter_filter.
      rewrite (list_filter_iff
                 (λ r, aimg_pk r ≠ Some k ∧ aimg_artist r = aimg_artist a)
                 (λ r, aimg_artist r = aimg_artist a ∧ aimg_pk r ≠ Some k));
        [done|]. intros r. tauto.
  - apply length_filter_and.
Qed.

Lemma GroupImage_save_returns (g g' : GroupImage) (st st' : Store) :
  GroupImage.save g st = (Return g', st') →
  length (filter (λ r, gimg_agrupacion r = gimg_agrupacion g'
                       ∧ gimg_pk r ≠ gimg_pk g') (group_images st)) < 5
  ∧ row_exists Agrupacion_table (gimg_agrupacion g') (agrupaciones st)
  ∧ st' = set_group_images (upsert GroupImage_table g' (group_images st)) st.
Proof.
  unfold GroupImage.save. rewrite bind_eq.
  destruct (GroupImage_clean_eq g st) as [msg ->].
  destruct (references _ _ _); [|done].
  case_bool_decide as Hex; [done|]. rewrite Model_save_eq. simpl.
  match goal with
  | |- context [GroupImage_constraints ?x st] => set (self1 := x)
  end.
  destruct (GroupImage_constraints self1 st) eqn:Hc; [|done].
  apply andb_true_iff in Hc as [Hc _].
  intros [= <- <-]. split; [|split; [by apply references_true|done]].
  assert (gimg_agrupacion self1 = gimg_agrupacion g) as ->
    by (unfold self1; by destruct (gimg_pk g)).
  eapply Nat.le_lt_trans; [|apply Nat.nle_gt, Hex].
  unfold existing, count, exclude, qfilter, self1. simpl.
  destruct (gimg_pk g) as [k|] eqn:Hk; simpl; rewrite ?Hk.
  - destruct (k =? 0)%Z; simpl.
    + apply length_filter_and.
    + rewrite list_filter_filter.
      rewrite (list_filter_iff
                 (λ r, gimg_pk r ≠ Some k ∧ gimg_agrupacion r = gimg_agrupacion g)
                 (λ r, gimg_agrupacion r = gimg_agrupacion g ∧ gimg_pk r ≠ Some k));
        [done|]. intros r. tauto.
  - apply length_filter_and.
Qed.

(** X1.  The limit of 5 images is an invariant.  On a table of images in
    which no key is repeated, if no owner has more than 5 images, then after
    any image save that returns (a new image or an update, with the same or
    another owner) no owner has more than 5 images; the save writes to the
    table of the image class and to no other table.  The same holds of
    [ArtistImage] and of [GroupImage]. *)
Theorem image_limit_invariant (st st' : Store) :
  (∀ (a a' : ArtistImage),
     NoDup (aimg_pk <$> artist_images st) →
     (∀ owner, length (images_of_artist owner st) ≤ 5) →
     ArtistImage.save a st = (Return a', st') →
     (∀ owner, length (images_of_artist owner st') ≤ 5)
     ∧ a' ∈ artist_images st'
     ∧ st' = set_artist_images (artist_images st') st)
  ∧ (∀ (g g' : GroupImage),
       NoDup (gimg_pk <$> group_images st) →
       (∀ owner, length (images_of_agrupacion owner st) ≤ 5) →
       GroupImage.save g st = (Return g', st') →
       (∀ owner, length (images_of_agrupacion owner st') ≤ 5)
       ∧ g' ∈ group_images st'
       ∧ st' = set_group_images (group_images st') st).
Proof.
  split.
  - intros a a' Hnd Hlim (Hsib & _ & ->)%ArtistImage_save_returns.
    split; [|split; [apply upsert_elem|done]].
    intros owner. unfold images_of_artist. simpl.
    pose proof (count_upsert ArtistImage_table (λ r, aimg_artist r = owner)
                  a' (artist_images st) Hnd) as Hle.
    simpl in Hle. destruct (decide (aimg_artist a' = owner)) as [<-|Hne].
    + lia.
    + specialize (Hlim owner). unfold images_of_artist in Hlim.
      pose proof (length_filter_and (λ r, aimg_artist r = owner)
                    (λ r, aimg_pk r ≠ aimg_pk a') (artist_images st)).
      lia.
  - intros g g' Hnd Hlim (Hsib & _ & ->)%GroupImage_save_returns.
    split; [|split; [apply upsert_elem|done]].
    intros owner. unfold images_of_agrupacion. simpl.
    pose proof (count_upsert GroupImage_table (λ r, gimg_agrupacion r = owner)
                  g' (group_images st) Hnd) as Hle.
    simpl in Hle. destruct (decide (gimg_agrupacion g' = owner)) as [<-|Hne].
    + lia.
    + specialize (Hlim owner). unfold images_of_agrupacion in Hlim.
      pose proof (length_filter_and (λ r, gimg_agrupacion r = owner)
                    (λ r, gimg_pk r ≠ gimg_pk g') (group_images st)).
      lia.
Qed.

Lemma image_limit_invariant_witness :
  length (images_of_artist 1
            (set_artist_images (foto ∘ Some <$> [1; 2; 3; 4; 5]%Z)
               (gallery [1; 2; 3; 4]%Z))) ≤ 5
  ∧ foto (Some 5%Z)
    ∈ artist_images
        (set_artist_images (foto ∘ Some <$> [1; 2; 3; 4; 5]%Z)
           (gallery [1; 2; 3; 4]%Z)).
Proof.
  destruct (image_limit_invariant (gallery [1; 2; 3; 4]%Z)
              (set_artist_images (foto ∘ Some <$> [1; 2; 3; 4; 5]%Z)
                 (gallery [1; 2; 3; 4]%Z))) as [Ha _].
  destruct (Ha (foto None) (foto (Some 5%Z))) as (Hlim & Hin & _).
  - apply (bool_decide_unpack _). vm_compute. exact I.
  - intros owner. unfold images_of_artist.
    etrans; [apply length_filter|]. simpl. lia.
  - vm_compute. reflexivity.
  - split; [apply Hlim|exact Hin].
Defined.

(** Updating a stored ArtistImage in place: [clean] sees the other images of the
    owner. *)
Lemma ArtistImage_siblings_of_stored (a row : ArtistImage) (st : Store) :
  NoDup (aimg_pk <$> artist_images st) → row ∈ artist_images st → aimg_pk a = aimg_pk row →
  length (artist_siblings a st)
  = length (images_of_artist (aimg_artist a) st)
    - (if decide (aimg_artist row = aimg_artist a) then 1 else 0).
Proof.
  intros Hnd Hrow Hpk. unfold artist_siblings, images_of_artist.
  destruct (decide (aimg_artist row = aimg_artist a)) as [Ho|Ho].
  - pose proof (count_without_row ArtistImage_table (λ r, aimg_artist r = aimg_artist a)
                  _ row Hnd Hrow Ho) as Hc.
    simpl in Hc. rewrite <-Hpk in Hc. lia.
  - rewrite Nat.sub_0_r. f_equal. apply filter_ext_in. intros r Hr.
    split; [tauto|]. intros Hor. split; [done|]. intros Heq.
    apply Ho. rewrite <-Hor. f_equal. symmetry.
    apply (key_determines_row ArtistImage_table (artist_images st)); try done.
    simpl. congruence.
Qed.

(** Updating a stored GroupImage in place: [clean] sees the other images of the
    owner. *)
Lemma GroupImage_siblings_of_stored (a row : GroupImage) (st : Store) :
  NoDup (gimg_pk <$> group_images st) → row ∈ group_images st → gimg_pk a = gimg_pk row →
  length (group_siblings a st)
  = length (images_of_agrupacion (gimg_agrupacion a) st)
    - (if decide (gimg_agrupacion row = gimg_agrupacion a) then 1 else 0).
Proof.
  intros Hnd Hrow Hpk. unfold group_siblings, images_of_agrupacion.
  destruct (decide (gimg_agrupacion row = gimg_agrupacion a)) as [Ho|Ho].
  - pose proof (count_without_row GroupImage_table (λ r, gimg_agrupacion r = gimg_agrupacion a)
                  _ row Hnd Hrow Ho) as Hc.
    simpl in Hc. rewrite <-Hpk in Hc. lia.
  - rewrite Nat.sub_0_r. f_equal. apply filter_ext_in. intros r Hr.
    split; [tauto|]. intros Hor. split; [done|]. intros Heq.
    apply Ho. rewrite <-Hor. f_equal. symmetry.
    apply (key_determines_row GroupImage_table (group_images st)); try done.
    simpl. congruence.
Qed.

Lemma count_fmap_same {A} (P : A → Prop) `{∀ x, Decision (P x)} (f : A → A)
    (l : list A) :
  (∀ x, x ∈ l → P (f x) ↔ P x) →
  length (filter P (f <$> l)) = length (filter P l).
Proof.
  induction l as [|x l IH]; [done|]. intros Hf.
  rewrite fmap_cons, !filter_cons.
  assert (P (f x) ↔ P x) as Hx by (apply Hf; left).
  specialize (IH (λ y Hy, Hf y (list_elem_of_further _ _ _ Hy))).
  destruct (decide (P (f x))), (decide (P x)); simpl; try tauto; lia.
Qed.

(** Writing over a stored row a row that [P] does not tell from it leaves
    the count of [P] and the key column as they were. *)
Lemma count_upsert_same {A} (T : Table A) (P : A → Prop)
    `{∀ x, Decision (P x)} (self row : A) (tbl : list A) :
  NoDup (pk T <$> tbl) → row ∈ tbl → pk T self = pk T row →
  (P self ↔ P row) →
  length (filter P (upsert T self tbl)) = length (filter P tbl)
  ∧ pk T <$> upsert T self tbl = pk T <$> tbl.
Proof.
  intros Hnd Hrow Hpk HP. unfold upsert.
  rewrite bool_decide_eq_true_2
    by (rewrite Hpk; by apply list_elem_of_fmap_2).
  split.
  - apply count_fmap_same. intros x Hx. case_bool_decide as Hk; [|done].
    assert (x = row) as -> by (apply (key_determines_row T tbl); congruence).
    done.
  - rewrite <-list_fmap_compose. apply list_fmap_ext. intros i x Hx. simpl.
    by case_bool_decide.
Qed.

Lemma ArtistImage_update_in_place (a row : ArtistImage) (st : Store) :
  primary_key ArtistImage_table (artist_images st) →
  row ∈ artist_images st → aimg_pk a = aimg_pk row → aimg_artist a = aimg_artist row →
  length (images_of_artist (aimg_artist a) st) ≤ 5 →
  row_exists ArtistProfile_table (aimg_artist a) (artist_profiles st) →
  (valid_orden (aimg_orden a) →
   ∃ st',
     ArtistImage.save a st = (Return a, st')
     ∧ a ∈ artist_images st'
     ∧ (∀ owner, length (images_of_artist owner st') = length (images_of_artist owner st))
     ∧ aimg_pk <$> artist_images st' = aimg_pk <$> artist_images st)
  ∧ ((aimg_orden a < 0)%Z → ArtistImage.save a st = (Raise IntegrityError, st)).
Proof.
  intros [Hkeys Hnd] Hrow Hpk Hown Hlim Hex.
  destruct (ArtistImage_clean_siblings a st Hkeys Hex) as [msg Hclean].
  apply references_true in Hex.
  pose proof (ArtistImage_siblings_of_stored a row st Hnd Hrow Hpk) as Hsib.
  rewrite decide_True in Hsib by done.
  rewrite bool_decide_eq_false_2 in Hclean by lia.
  unfold ArtistImage.save. rewrite bind_eq, Hclean, Model_save_eq. simpl.
  rewrite Forall_forall in Hkeys.
  destruct (Hkeys row Hrow) as (k & Hk & _). simpl in Hk.
  rewrite Hpk, Hk. unfold ArtistImage_constraints. rewrite Hex. simpl. split.
  - intros [Hlo _]. apply Z.leb_le in Hlo. rewrite Hlo.
    eexists. split; [done|]. simpl. split; [apply upsert_elem|].
    split.
    + intros owner. unfold images_of_artist. simpl.
      apply (count_upsert_same ArtistImage_table _ a row); [done..|].
      by rewrite Hown.
    + apply (count_upsert_same ArtistImage_table (λ _, True) a row); done.
  - intros Hneg. apply Z.leb_gt in Hneg. by rewrite Hneg.
Qed.

Lemma ArtistImage_move_checked (a row : ArtistImage) (st : Store) :
  primary_key ArtistImage_table (artist_images st) →
  row ∈ artist_images st → aimg_pk a = aimg_pk row → aimg_artist a ≠ aimg_artist row →
  row_exists ArtistProfile_table (aimg_artist a) (artist_profiles st) →
  ∃ message,
    ArtistImage.clean a st =
      if bool_decide (5 ≤ length (images_of_artist (aimg_artist a) st))
      then (Raise (ValidationError message), st)
      else (Return a, st).
Proof.
  intros [Hkeys Hnd] Hrow Hpk Hown Hex.
  destruct (ArtistImage_clean_siblings a st Hkeys Hex) as [msg Hclean].
  pose proof (ArtistImage_siblings_of_stored a row st Hnd Hrow Hpk) as Hsib.
  rewrite decide_False in Hsib by done. rewrite Nat.sub_0_r in Hsib.
  exists msg. by rewrite Hclean, Hsib.
Qed.

Lemma GroupImage_update_in_place (a row : GroupImage) (st : Store) :
  primary_key GroupImage_table (group_images st) →
  row ∈ group_images st → gimg_pk a = gimg_pk row → gimg_agrupacion a = gimg_agrupacion row →
  length (images_of_agrupacion (gimg_agrupacion a) st) ≤ 5 →
  row_exists Agrupacion_table (gimg_agrupacion a) (agrupaciones st) →
  (valid_orden (gimg_orden a) →
   ∃ st',
     GroupImage.save a st = (Return a, st')
     ∧ a ∈ group_images st'
     ∧ (∀ owner, length (images_of_agrupacion owner st') = length (images_of_agrupacion owner st))
     ∧ gimg_pk <$> group_images st' = gimg_pk <$> group_images st)
  ∧ ((gimg_orden a < 0)%Z → GroupImage.save a st = (Raise IntegrityError, st)).
Proof.
  intros [Hkeys Hnd] Hrow Hpk Hown Hlim Hex.
  destruct (GroupImage_clean_siblings a st Hkeys Hex) as [msg Hclean].
  apply references_true in Hex.
  pose proof (GroupImage_siblings_of_stored a row st Hnd Hrow Hpk) as Hsib.
  rewrite decide_True in Hsib by done.
  rewrite bool_decide_eq_false_2 in Hclean by lia.
  unfold GroupImage.save. rewrite bind_eq, Hclean, Model_save_eq. simpl.
  rewrite Forall_forall in Hkeys.
  destruct (Hkeys row Hrow) as (k & Hk & _). simpl in Hk.
  rewrite Hpk, Hk. unfold GroupImage_constraints. rewrite Hex. simpl. split.
  - intros [Hlo _]. apply Z.leb_le in Hlo. rewrite Hlo.
    eexists. split; [done|]. simpl. split; [apply upsert_elem|].
    split.
    + intros owner. unfold images_of_agrupacion. simpl.
      apply (count_upsert_same GroupImage_table _ a row); [done..|].
      by rewrite Hown.
    + apply (count_upsert_same GroupImage_table (λ _, True) a row); done.
  - intros Hneg. apply Z.leb_gt in Hneg. by rewrite Hneg.
Qed.

Lemma GroupImage_move_checked (a row : GroupImage) (st : Store) :
  primary_key GroupImage_table (group_images st) →
  row ∈ group_images st → gimg_pk a = gimg_pk row → gimg_agrupacion a ≠ gimg_agrupacion row →
  row_exists Agrupacion_table (gimg_agrupacion a) (agrupaciones st) →
  ∃ message,
    GroupImage.clean a st =
      if bool_decide (5 ≤ length (images_of_agrupacion (gimg_agrupacion a) st))
      then (Raise (ValidationError message), st)
      else (Return a, st).
Proof.
  intros [Hkeys Hnd] Hrow Hpk Hown Hex.
  destruct (GroupImage_clean_siblings a st Hkeys Hex) as [msg Hclean].
  pose proof (GroupImage_siblings_of_stored a row st Hnd Hrow Hpk) as Hsib.
  rewrite decide_False in Hsib by done. rewrite Nat.sub_0_r in Hsib.
  exists msg. by rewrite Hclean, Hsib.
Qed.

(** X2.  Updating a stored image in place.  On a table with a key column
    (every stored key is a number other than 0, and no two rows share one),
    take an image that was loaded from the store and edited: an instance
    that has the key and the owner of a stored image.  When the owner is in
    the store and has at most 5 images, saving the instance returns if its
    [orden] is within 0..32767: the instance is in the table, the number of
    images of every owner is what it was, and so is the key column.  If its
    [orden] is negative the database refuses the row with [IntegrityError]
    and nothing is written.  The same holds of [ArtistImage] and of
    [GroupImage]. *)
Theorem image_update_in_place (st : Store) :
  (∀ (a row : ArtistImage),
     primary_key ArtistImage_table (artist_images st) →
     row ∈ artist_images st →
     aimg_pk a = aimg_pk row → aimg_artist a = aimg_artist row →
     length (images_of_artist (aimg_artist a) st) ≤ 5 →
     row_exists ArtistProfile_table (aimg_artist a) (artist_profiles st) →
     (valid_orden (aimg_orden a) →
      ∃ st',
        ArtistImage.save a st = (Return a, st')
        ∧ a ∈ artist_images st'
        ∧ (∀ owner, length (images_of_artist owner st')
                    = length (images_of_artist owner st))
        ∧ aimg_pk <$> artist_images st' = aimg_pk <$> artist_images st)
     ∧ ((aimg_orden a < 0)%Z →
        ArtistImage.save a st = (Raise IntegrityError, st)))
  ∧ (∀ (g row : GroupImage),
       primary_key GroupImage_table (group_images st) →
       row ∈ group_images st →
       gimg_pk g = gimg_pk row → gimg_agrupacion g = gimg_agrupacion row →
       length (images_of_agrupacion (gimg_agrupacion g) st) ≤ 5 →
       row_exists Agrupacion_table (gimg_agrupacion g) (agrupaciones st) →
       (valid_orden (gimg_orden g) →
        ∃ st',
          GroupImage.save g st = (Return g, st')
          ∧ g ∈ group_images st'
          ∧ (∀ owner, length (images_of_agrupacion owner st')
                      = length (images_of_agrupacion owner st))
          ∧ gimg_pk <$> group_images st' = gimg_pk <$> group_images st)
       ∧ ((gimg_orden g < 0)%Z →
          GroupImage.save g st = (Raise IntegrityError, st))).
Proof.
  split.
  - intros a row. apply ArtistImage_update_in_place.
  - intros g row. apply GroupImage_update_in_place.
Qed.

Lemma image_update_in_place_witness :
  (∃ st',
     ArtistImage.save
       (mkArtistImage (Some 3%Z) 1 "artists/images/otra.jpg" (Some "Otra") 2)
       (gallery [1; 2; 3; 4; 5]%Z)
     = (Return (mkArtistImage (Some 3%Z) 1 "artists/images/otra.jpg"
                  (Some "Otra") 2), st')
     ∧ ∀ owner, length (images_of_artist owner st')
                = length (images_of_artist owner (gallery [1; 2; 3; 4; 5]%Z)))
  ∧ ArtistImage.save
      (mkArtistImage (Some 3%Z) 1 "artists/images/otra.jpg" (Some "Otra") (-1))
      (gallery [1; 2; 3; 4; 5]%Z)
    = (Raise IntegrityError, gallery [1; 2; 3; 4; 5]%Z).
Proof.
  destruct gallery_primary_keys as [Hkeys _].
  destruct (image_update_in_place (gallery [1; 2; 3; 4; 5]%Z)) as [Ha _].
  assert (foto (Some 3%Z) ∈ artist_images (gallery [1; 2; 3; 4; 5]%Z)) as Hrow
    by (apply list_elem_of_In; simpl; tauto).
  assert (length (images_of_artist 1 (gallery [1; 2; 3; 4; 5]%Z)) ≤ 5) as Hlim
    by (vm_compute; lia).
  assert (row_exists ArtistProfile_table 1
            (artist_profiles (gallery [1; 2; 3; 4; 5]%Z))) as Hown
    by (exists perfil; split; [left|reflexivity]).
  split.
  - destruct (Ha (mkArtistImage (Some 3%Z) 1 "artists/images/otra.jpg"
                    (Some "Otra") 2) (foto (Some 3%Z)) Hkeys Hrow
                eq_refl eq_refl Hlim Hown) as [Hok _].
    destruct Hok as (st' & Hsave & _ & Hcount & _).
    + unfold valid_orden. simpl. lia.
    + exists st'. split; [exact Hsave|exact Hcount].
  - destruct (Ha (mkArtistImage (Some 3%Z) 1 "artists/images/otra.jpg"
                    (Some "Otra") (-1)) (foto (Some 3%Z)) Hkeys Hrow
                eq_refl eq_refl Hlim Hown) as [_ Hneg].
    apply Hneg. simpl. lia.
Defined.

(** X3.  Moving a stored image to another owner.  On a table with a key
    column (every stored key is a number other than 0, and no two rows share
    one), for an instance that has the key of a stored image and another
    owner, one that is in the store, [clean] raises [ValidationError]
    exactly when the new owner already has 5 images or more: the image
    being moved is not one of them, so nothing is set aside.  The same holds
    of [ArtistImage] and of [GroupImage]. *)
Theorem image_move_checked (st : Store) :
  (∀ (a row : ArtistImage),
     primary_key ArtistImage_table (artist_images st) →
     row ∈ artist_images st →
     aimg_pk a = aimg_pk row → aimg_artist a ≠ aimg_artist row →
     row_exists ArtistProfile_table (aimg_artist a) (artist_profiles st) →
     ∃ message,
       ArtistImage.clean a st =
         if bool_decide (5 ≤ length (images_of_artist (aimg_artist a) st))
         then (Raise (ValidationError message), st)
         else (Return a, st))
  ∧ (∀ (g row : GroupImage),
       primary_key GroupImage_table (group_images st) →
       row ∈ group_images st →
       gimg_pk g = gimg_pk row → gimg_agrupacion g ≠ gimg_agrupacion row →
       row_exists Agrupacion_table (gimg_agrupacion g) (agrupaciones st) →
       ∃ message,
         GroupImage.clean g st =
           if bool_decide (5 ≤ length (images_of_agrupacion (gimg_agrupacion g) st))
           then (Raise (ValidationError message), st)
           else (Return g, st)).
Proof.
  split.
  - intros a row. apply ArtistImage_move_checked.
  - intros g row. apply GroupImage_move_checked.
Qed.

Lemma image_move_checked_witness :
  ∃ message,
    ArtistImage.clean (mkArtistImage (Some 6%Z) 1 "artists/images/b.jpg" None 0)
      dos_galerias
    = (Raise (ValidationError message), dos_galerias).
Proof.
  destruct (image_move_checked dos_galerias) as [Ha _].
  apply (Ha (mkArtistImage (Some 6%Z) 1 "artists/images/b.jpg" None 0)
            (mkArtistImage (Some 6%Z) 2 "artists/images/b.jpg" None 0)).
  - split.
    + repeat (apply List.Forall_cons; [by eexists|]). apply List.Forall_nil.
    + apply (bool_decide_unpack _). vm_compute. exact I.
  - apply list_elem_of_In. simpl. tauto.
  - reflexivity.
  - done.
  - eexists. split; [left|reflexivity].
Defined.

(** ** Slugs of collectives *)

Lemma upsert_keys {A} (T : Table A) (self : A) (tbl : list A) :
  NoDup (pk T <$> tbl) → NoDup (pk T <$> upsert T self tbl).
Proof.
  intros Hnd. unfold upsert. case_bool_decide as Hin.
  - rewrite <-list_fmap_compose.
    erewrite list_fmap_ext; [exact Hnd|]. intros i r Hr. simpl.
    by case_bool_decide.
  - rewrite fmap_app. apply NoDup_app. split; [done|]. split.
    + by intros k Hk ->%list_elem_of_singleton.
    + apply NoDup_singleton.
Qed.

(** A column that is unique in the table stays unique when a row that
    passes the [unique] check is written. *)
Lemma upsert_unique_col {A B} `{EqDecision B} (T : Table A) (col : A → B)
    (self : A) (tbl : list A) :
  NoDup (pk T <$> tbl) → NoDup (col <$> tbl) →
  unique T col self tbl = true →
  NoDup (col <$> upsert T self tbl).
Proof.
  intros Hkeys Hcol Hu. rewrite unique_spec in Hu.
  unfold upsert. case_bool_decide as Hin.
  - clear Hin. induction tbl as [|x tbl IH]; [constructor|].
    rewrite !fmap_cons in *.
    apply NoDup_cons in Hkeys as [Hkx Hkeys].
    apply NoDup_cons in Hcol as [Hcx Hcol].
    apply NoDup_cons. split.
    + intros (y' & Heq & (y & -> & Hy)%list_elem_of_fmap)%list_elem_of_fmap.
      assert (pk T y ∈ pk T <$> tbl) as Hky by (by apply list_elem_of_fmap_2).
      assert (col y ∈ col <$> tbl) as Hcy by (by apply list_elem_of_fmap_2).
      pose proof (Hu x (list_elem_of_here _ _)) as Hux.
      pose proof (Hu y (list_elem_of_further _ _ _ Hy)) as Huy.
      destruct (decide (pk T x = pk T self)) as [Hx|Hx],
               (decide (pk T y = pk T self)) as [Hy'|Hy'];
        rewrite ?(bool_decide_eq_true_2 _ Hx), ?(bool_decide_eq_false_2 _ Hx),
          ?(bool_decide_eq_true_2 _ Hy'), ?(bool_decide_eq_false_2 _ Hy')
          in Heq.
      * apply Hkx. by rewrite Hx, <-Hy'.
      * apply Hy', Huy. done.
      * apply Hx, Hux. done.
      * apply Hcx. by rewrite Heq.
    + apply IH; [done..|]. intros r Hr. apply Hu. by right.
  - rewrite fmap_app. apply NoDup_app. split; [done|]. split.
    + intros c (r & -> & Hr)%list_elem_of_fmap Hc.
      apply list_elem_of_singleton in Hc.
      apply Hin. rewrite <-(Hu r Hr Hc). by apply list_elem_of_fmap_2.
    + apply NoDup_singleton.
Qed.

(** The block that derives the slug only reads the store. *)
Lemma derive_slug_returns slugify (self : Agrupacion) (st : Store) :
  ∃ self1, Agrupacion.derive_slug slugify self st = (Return self1, st)
           ∧ (slug self ≠ "" → self1 = self).
Proof.
  destruct (decide (slug self = "")) as [Hs|Hs].
  - destruct (probe_from_base
                (String.substring 0 180 (slugify (nombre self))) st)
      as (n & _ & _ & Hprobe).
    eexists. rewrite derive_slug_empty, Hprobe by (done || lia). done.
  - exists self. split; [|done]. unfold Agrupacion.derive_slug.
    by rewrite bool_decide_eq_false_2.
Qed.

(** X4.  Slugs stay unique.  On a table in which no key and no slug is
    repeated, after any save of a collective that returns (with an empty slug
    or a given one, new or stored) no key and no slug is repeated; the saved
    collective is in the table and no other table is written. *)
Theorem slug_unique_invariant (slugify : string → string) (st st' : Store)
    (self self' : Agrupacion) :
  NoDup (agrupacion_pk <$> agrupaciones st) →
  NoDup (slug <$> agrupaciones st) →
  Agrupacion.save slugify self st = (Return self', st') →
  NoDup (agrupacion_pk <$> agrupaciones st')
  ∧ NoDup (slug <$> agrupaciones st')
  ∧ self' ∈ agrupaciones st'
  ∧ st' = set_agrupaciones (agrupaciones st') st.
Proof.
  intros Hkeys Hslugs. unfold Agrupacion.save. rewrite bind_eq.
  destruct (derive_slug_returns slugify self st) as (self1 & -> & _).
  rewrite Model_save_auto_eq, Model_save_eq. cbv zeta.
  match goal with
  | |- context [Agrupacion_constraints ?x st] => set (self2 := x)
  end.
  unfold Agrupacion_constraints.
  destruct (unique Agrupacion_table slug self2 (agrupaciones st)) eqn:Hu;
    [|done].
  destruct (references _ _ _); [|done]. simpl. intros [= <- <-]. simpl.
  split; [by apply (upsert_keys Agrupacion_table)|].
  split; [by apply (upsert_unique_col Agrupacion_table slug)|].
  split; [apply upsert_elem|done].
Qed.

Lemma slug_unique_invariant_witness :
  NoDup (slug <$> agrupaciones
           (set_agrupaciones
              [trovadores;
               mkAgrupacion (Some 2%Z) "Los Trovadores" "los-trovadores-1" 1
                 None None 0 0]
              (gallery []))).
Proof.
  refine (proj1 (proj2 (slug_unique_invariant Text.slugify (gallery []) _
                          (nueva "Los Trovadores")
                          (mkAgrupacion (Some 2%Z) "Los Trovadores"
                             "los-trovadores-1" 1 None None 0 0) _ _ _))).
  - apply (bool_decide_unpack _). vm_compute. exact I.
  - apply (bool_decide_unpack _). vm_compute. exact I.
  - vm_compute. reflexivity.
Defined.

(** X5.  A collective saved with an empty slug is never turned down for its
    slug.  Whenever its administrator exists, the save returns, for a new
    collective as for a stored one: the slug it has been given is one that
    no collective of the store had, and the collective is in the table. *)
Theorem empty_slug_save_succeeds (slugify : string → string) (st : Store)
    (self : Agrupacion) :
  slug self = "" →
  row_exists CustomUser_table (administrador self) (users st) →
  ∃ self' st',
    Agrupacion.save slugify self st = (Return self', st')
    ∧ ¬ slug_taken (slug self') st
    ∧ self' ∈ agrupaciones st'.
Proof.
  intros Hs Hadm.
  destruct (free_candidate (String.substring 0 180 (slugify (nombre self))) st)
    as (n & _ & Hfree & Htaken).
  destruct (Agrupacion_save_empty_slug slugify self st n Hs Hadm Hfree Htaken)
    as (self' & st' & Hsave & Hslug & Hin & _).
  exists self', st'. by rewrite Hslug.
Qed.

Lemma empty_slug_save_succeeds_witness :
  ∃ self' st',
    Agrupacion.save Text.slugify (nueva "Los Trovadores") suffix_taken
    = (Return self', st')
    ∧ ¬ slug_taken (slug self') suffix_taken
    ∧ self' ∈ agrupaciones st'.
Proof.
  apply (empty_slug_save_succeeds Text.slugify suffix_taken
           (nueva "Los Trovadores") eq_refl).
  exists ana. split; [left|reflexivity].
Defined.

(** Saving a new collective with an empty slug appends one row. *)
Lemma Agrupacion_save_appends slugify (self : Agrupacion) (st : Store)
    (n : nat) :
  slug self = "" → agrupacion_pk self = None →
  row_exists CustomUser_table (administrador self) (users st) →
  ¬ slug_taken (candidate (String.substring 0 180 (slugify (nombre self))) n) st →
  (∀ m, m < n →
     slug_taken (candidate (String.substring 0 180 (slugify (nombre self))) m) st) →
  ∃ self',
    Agrupacion.save slugify self st
    = (Return self', set_agrupaciones (agrupaciones st ++ [self']) st)
    ∧ slug self' = candidate (String.substring 0 180 (slugify (nombre self))) n.
Proof.
  intros Hs Hpk Hadmin%references_true Hfree Htaken.
  destruct (probe_from_base (String.substring 0 180 (slugify (nombre self))) st)
    as (n' & Hfree' & Htaken' & Hprobe).
  assert (n' = n) as -> by (by eapply first_free_unique).
  unfold Agrupacion.save.
  rewrite bind_eq, derive_slug_empty, Hprobe by (done || lia).
  rewrite Model_save_auto_eq.
  rewrite (Model_save_new _ _ _ _ Agrupacion_table_laws) by done. simpl.
  unfold Agrupacion_constraints. simpl. rewrite Hadmin, andb_true_r.
  rewrite (proj2 (unique_spec Agrupacion_table slug _ _)).
  - eexists. split; done.
  - intros r Hr Heq. simpl in Heq. destruct Hfree. by exists r.
Qed.

(** X6.  Collectives of one name receive the candidates in order.  If the
    candidates of [base] that are taken in the store are exactly the first
    [j] ([base], [base-1], ..., up to suffix [j - 1]), a new collective whose
    name gives [base], saved with an empty slug by an existing administrator,
    receives candidate [j], and afterwards the candidates taken are exactly
    the first [j + 1]. *)
Theorem slugs_fill_in_order (slugify : string → string) (st : Store)
    (self : Agrupacion) (j : nat) :
  slug self = "" → agrupacion_pk self = None →
  row_exists CustomUser_table (administrador self) (users st) →
  (∀ m, slug_taken
          (candidate (String.substring 0 180 (slugify (nombre self))) m) st
        ↔ m < j) →
  ∃ self' st',
    Agrupacion.save slugify self st = (Return self', st')
    ∧ slug self' = candidate (String.substring 0 180 (slugify (nombre self))) j
    ∧ ∀ m, slug_taken
             (candidate (String.substring 0 180 (slugify (nombre self))) m) st'
           ↔ m < S j.
Proof.
  intros Hs Hpk Hadm Hseg.
  destruct (Agrupacion_save_appends slugify self st j Hs Hpk Hadm)
    as (self' & Hsave & Hslug).
  { rewrite Hseg. lia. }
  { intros m Hm. by apply Hseg. }
  exists self'. eexists. split; [exact Hsave|]. split; [done|].
  intros m. unfold slug_taken at 1. simpl. split.
  - intros (r & [Hr|Hr%list_elem_of_singleton]%elem_of_app & Hsr).
    + assert (m < j) by (apply Hseg; by exists r). lia.
    + subst r. rewrite Hslug in Hsr. apply (inj (candidate _)) in Hsr. lia.
  - intros Hm. destruct (decide (m = j)) as [->|Hne].
    + exists self'. split; [|done]. apply elem_of_app. right. left.
    + assert (m < j) as (r & Hr & Hsr)%Hseg by lia.
      exists r. split; [|done]. apply elem_of_app. by left.
Qed.

Lemma slugs_fill_in_order_witness :
  ∃ self' st',
    Agrupacion.save Text.slugify (nueva "Los Trovadores") (gallery [])
    = (Return self', st')
    ∧ slug self' = candidate "los-trovadores" 1
    ∧ ∀ m, slug_taken (candidate "los-trovadores" m) st' ↔ m < 2.
Proof.
  apply (slugs_fill_in_order Text.slugify (gallery []) (nueva "Los Trovadores")
           1 eq_refl eq_refl).
  - exists ana. split; [left|reflexivity].
  - intros m. split.
    + intros (r & Hr%list_elem_of_singleton & Hsr). subst r.
      change (candidate "los-trovadores" 0 = candidate "los-trovadores" m)
        in Hsr.
      apply (inj (candidate _)) in Hsr. lia.
    + intros Hm. replace m with 0 by lia. exists trovadores.
      split; [left|reflexivity].
Defined.

(** ** Referential integrity under deletion *)

Lemma elem_of_keys {A} (T : Table A) (fk : Z) (l : list A) :
  Some fk ∈ pk T <$> l ↔ fk ∈ omap (pk T) l.
Proof.
  rewrite list_elem_of_fmap, list_elem_of_omap. split.
  - intros (r & Hk & Hr). eauto.
  - intros (r & Hr & Hk). eauto.
Qed.

(** A row survives [delete_rows] when its key is the key of no doomed row. *)
Lemma row_exists_delete_rows {A} (T : Table A) (fk : Z) (doomed tbl : list A) :
  row_exists T fk tbl → fk ∉ omap (pk T) doomed →
  row_exists T fk (filter (λ x, pk T x ∉ pk T <$> doomed) tbl).
Proof.
  intros (r & Hr & Hk) Hnot. exists r. split; [|done].
  apply list_elem_of_filter. split; [|done].
  rewrite Hk. by rewrite elem_of_keys.
Qed.

(** What is left of a table after [delete_rows] of the rows selected by
    [P]. *)
Lemma elem_of_delete_rows {A} (T : Table A) (P : A → Prop)
    `{∀ x, Decision (P x)} (tbl : list A) (r : A) :
  r ∈ filter (λ x, pk T x ∉ pk T <$> filter P tbl) tbl → r ∈ tbl ∧ ¬ P r.
Proof.
  intros Hr. split; [by apply list_elem_of_filter in Hr as [_ ?]|].
  by eapply delete_rows_gone.
Qed.

Lemma keys_of_selected {A} (T : Table A) (P : A → Prop)
    `{∀ x, Decision (P x)} (tbl : list A) (fk : Z) :
  fk ∈ omap (pk T) (filter P tbl) → ∃ r, r ∈ tbl ∧ P r ∧ pk T r = Some fk.
Proof.
  intros (r & (HP & Hr)%list_elem_of_filter & Hk)%list_elem_of_omap. eauto.
Qed.

(** A child row that was not collected still has its parent. *)
Ltac parent_survives Tchild Tparent Hri :=
  let x := fresh "x" in
  let Hx := fresh "Hx" in
  let Hnot := fresh "Hnot" in
  intros x Hx; apply (elem_of_delete_rows Tchild) in Hx as [Hx Hnot];
  apply (row_exists_delete_rows Tparent); [by apply Hri|exact Hnot].

(** The collector of artist profiles leaves no row without the row it
    refers to, whatever profiles it is started from. *)
Lemma collect_ArtistProfile_integrity (doomed : list ArtistProfile)
    (st st' : Store) :
  referential_integrity st →
  collect_ArtistProfile doomed st = (Return tt, st') →
  referential_integrity st'.
Proof.
  intros [Hgl Hau Had Hai Hgi Has Hgs Hag Ham Hgg].
  unfold collect_ArtistProfile, delete_rows, on_delete. run.
  intros [= <-]. split; simpl; unfold exclude, qfilter; try done.
  - intros p [_ Hp]%list_elem_of_filter. by apply Hau.
  - parent_survives ArtistImage_table ArtistProfile_table Hai.
  - parent_survives ArtistSocial_table ArtistProfile_table Has.
  - intros ag [Hnot Hin]%list_elem_of_filter. split; [|by apply Hag].
    apply (row_exists_delete_rows ArtistProfile_table); [by apply Hag|done].
  - intros am [Hnot Hin]%list_elem_of_filter. split; [by apply Ham|].
    apply (row_exists_delete_rows ArtistProfile_table); [by apply Ham|done].
Qed.

(** The same for the collector of collectives. *)
Lemma collect_Agrupacion_integrity (doomed : list Agrupacion)
    (st st' : Store) :
  referential_integrity st →
  collect_Agrupacion doomed st = (Return tt, st') →
  referential_integrity st'.
Proof.
  intros [Hgl Hau Had Hai Hgi Has Hgs Hag Ham Hgg].
  unfold collect_Agrupacion, delete_rows, on_delete. run.
  intros [= <-]. split; simpl; unfold exclude, qfilter; try done.
  - intros a [_ Ha]%list_elem_of_filter. by apply Had.
  - parent_survives GroupImage_table Agrupacion_table Hgi.
  - parent_survives GroupSocial_table Agrupacion_table Hgs.
  - intros am [Hnot Hin]%list_elem_of_filter. split; [|by apply Ham].
    apply (row_exists_delete_rows Agrupacion_table); [by apply Ham|done].
  - intros ag [Hnot Hin]%list_elem_of_filter. split; [|by apply Hgg].
    apply (row_exists_delete_rows Agrupacion_table); [by apply Hgg|done].
Qed.

Lemma bind_ret {A B} (a : A) (k : A → M B) (st : Store) :
  bind (ret a) k st = k a st.
Proof. done. Qed.

(** The collectors always return; what they leave of the tables of
    profiles, collectives and users. *)
Lemma collect_ArtistProfile_returns (doomed : list ArtistProfile) (st : Store) :
  ∃ st', collect_ArtistProfile doomed st = (Return tt, st')
         ∧ artist_profiles st'
           = filter (λ p, artist_pk p ∉ artist_pk <$> doomed) (artist_profiles st)
         ∧ agrupaciones st' = agrupaciones st
         ∧ users st' = users st.
Proof.
  unfold collect_ArtistProfile, delete_rows, on_delete. run. eauto.
Qed.

Lemma collect_Agrupacion_returns (doomed : list Agrupacion) (st : Store) :
  ∃ st', collect_Agrupacion doomed st = (Return tt, st')
         ∧ agrupaciones st'
           = filter (λ a, agrupacion_pk a ∉ agrupacion_pk <$> doomed)
               (agrupaciones st)
         ∧ artist_profiles st' = artist_profiles st
         ∧ users st' = users st.
Proof.
  unfold collect_Agrupacion, delete_rows, on_delete. run. eauto.
Qed.

(** Removing the users of a key that no profile and no collective refers
    to. *)
Lemma delete_user_rows_integrity (k : Z) (st : Store) :
  referential_integrity st →
  (∀ p, p ∈ artist_profiles st → artist_user p ≠ k) →
  (∀ a, a ∈ agrupaciones st → administrador a ≠ k) →
  referential_integrity
    (set_users (filter (λ x, user_pk x ∉ [Some k]) (users st)) st).
Proof.
  intros [Hgl Hau Had Hai Hgi Has Hgs Hag Ham Hgg] Hp Ha.
  split; simpl; try done.
  - intros p Hin. destruct (Hau p Hin) as (x & Hx & Hk).
    exists x. split; [|done]. apply list_elem_of_filter. split; [|done].
    rewrite list_elem_of_singleton. simpl in Hk. rewrite Hk.
    intros [= Heq]. by apply (Hp p).
  - intros a Hin. destruct (Had a Hin) as (x & Hx & Hk).
    exists x. split; [|done]. apply list_elem_of_filter. split; [|done].
    rewrite list_elem_of_singleton. simpl in Hk. rewrite Hk.
    intros [= Heq]. by apply (Ha a).
Qed.

(** X7.  Deleting a user leaves no dangling reference: if every foreign key
    and every many-to-many row of the store names a stored row, the same is
    true after [delete] of any user. *)
Theorem user_delete_keeps_integrity (st st' : Store) (u : CustomUser) :
  referential_integrity st →
  CustomUser.delete u st = (Return tt, st') →
  referential_integrity st'.
Proof.
  intros Hri. unfold CustomUser.delete.
  destruct (user_pk u) as [k|] eqn:Hpk; [|done].
  rewrite bind_query. unfold on_delete.
  rewrite bind_ret, bind_query, bind_ret, bind_eq.
  destruct (collect_ArtistProfile_returns
              (qfilter (λ p, artist_user p = k) (artist_profiles st)) st)
    as (st1 & Hc1 & Hp1 & Ha1 & Hu1).
  rewrite Hc1, bind_eq.
  destruct (collect_Agrupacion_returns
              (qfilter (λ a, administrador a = k) (agrupaciones st)) st1)
    as (st2 & Hc2 & Ha2 & Hp2 & Hu2).
  rewrite Hc2. unfold delete_rows, write, exclude. simpl. rewrite Hpk.
  intros [= <-].
  apply delete_user_rows_integrity.
  - eapply collect_Agrupacion_integrity; [|exact Hc2].
    eapply collect_ArtistProfile_integrity; [exact Hri|exact Hc1].
  - intros p Hp. rewrite Hp2, Hp1 in Hp.
    by apply (delete_rows_gone ArtistProfile_table) in Hp.
  - intros a Ha. rewrite Ha2, Ha1 in Ha.
    by apply (delete_rows_gone Agrupacion_table) in Ha.
Qed.

(** Referential integrity of a store given by its rows. *)
Ltac check_integrity :=
  split;
  (let x := fresh "x" in
   let Hx := fresh "Hx" in
   intros x Hx; apply list_elem_of_In in Hx; simpl in Hx;
   repeat (destruct Hx as [<-|Hx]); try done;
   try (match goal with |- _ ∧ _ => split end);
   apply references_true; reflexivity).

Lemma dos_artistas_integrity : referential_integrity dos_artistas.
Proof. check_integrity. Qed.

Lemma user_delete_keeps_integrity_witness :
  ∃ st', CustomUser.delete ana dos_artistas = (Return tt, st')
         ∧ referential_integrity st'.
Proof.
  eexists. split; [vm_compute; reflexivity|].
  apply (user_delete_keeps_integrity dos_artistas _ ana dos_artistas_integrity).
  vm_compute. reflexivity.
Defined.

(** X8.  Deleting an artist profile that has a key returns and cascades to
    what hangs from the profile: afterwards no profile of that key, no image
    and no social link of the profile, no membership of the profile in a
    collective and no genre attached to it is stored.  Users, collectives,
    genres and the images and links of collectives are untouched, and
    referential integrity is kept.  A profile without a key cannot be
    deleted: [ValueError], nothing written. *)
Theorem profile_delete_cascades (st : Store) (p : ArtistProfile) :
  (∀ k, artist_pk p = Some k →
     ∃ st',
       ArtistProfile_delete p st = (Return tt, st')
       ∧ (∀ q, q ∈ artist_profiles st' → artist_pk q ≠ Some k)
       ∧ (∀ i, i ∈ artist_images st' → aimg_artist i ≠ k)
       ∧ (∀ s, s ∈ artist_socials st' → asoc_artist s ≠ k)
       ∧ (∀ am, am ∈ agrupacion_miembros st' → am.2 ≠ k)
       ∧ (∀ ag, ag ∈ artist_generos st' → ag.1 ≠ k)
       ∧ users st' = users st
       ∧ agrupaciones st' = agrupaciones st
       ∧ generos st' = generos st
       ∧ group_images st' = group_images st
       ∧ group_socials st' = group_socials st
       ∧ (referential_integrity st → referential_integrity st'))
  ∧ (artist_pk p = None →
     ArtistProfile_delete p st = (Raise ValueError, st)).
Proof.
  split; [|intros Hpk; unfold ArtistProfile_delete; by rewrite Hpk].
  intros k Hpk. unfold ArtistProfile_delete. rewrite Hpk.
  destruct (collect_ArtistProfile [p] st) as [o st'] eqn:Hc.
  assert (o = Return tt) as ->.
  { destruct (collect_ArtistProfile_returns [p] st) as (? & Heq & _).
    congruence. }
  exists st'. split; [done|].
  split; [|split; [|split; [|split; [|split]]]].
  6: { repeat (match goal with |- _ = _ ∧ _ => split end);
         try (intros Hri;
              exact (collect_ArtistProfile_integrity [p] st st' Hri Hc));
         revert Hc; unfold collect_ArtistProfile, delete_rows, on_delete; run;
         by intros [= <-]. }
  all: revert Hc; unfold collect_ArtistProfile, delete_rows, on_delete; run;
    intros [= <-]; simpl; rewrite Hpk; unfold exclude, qfilter.
  - intros q [Hq _]%list_elem_of_filter Heq. apply Hq. rewrite Heq. left.
  - intros i Hi Heq.
    apply (delete_rows_gone ArtistImage_table) in Hi. apply Hi.
    rewrite Heq. left.
  - intros s Hs Heq.
    apply (delete_rows_gone ArtistSocial_table) in Hs. apply Hs.
    rewrite Heq. left.
  - intros am [Ham _]%list_elem_of_filter Heq. apply Ham. rewrite Heq. left.
  - intros ag [Hag _]%list_elem_of_filter Heq. apply Hag. rewrite Heq. left.
Qed.

Lemma profile_delete_cascades_witness :
  ∃ st',
    ArtistProfile_delete perfil dos_artistas = (Return tt, st')
    ∧ (∀ i, i ∈ artist_images st' → aimg_artist i ≠ 1%Z)
    ∧ users st' = users dos_artistas
    ∧ referential_integrity st'.
Proof.
  destruct (profile_delete_cascades dos_artistas perfil) as [Hdel _].
  destruct (Hdel 1%Z eq_refl)
    as (st' & Hd & _ & Hi & _ & _ & _ & Hu & _ & _ & _ & _ & Hri).
  exists st'. split; [exact Hd|]. split; [exact Hi|].
  split; [exact Hu|]. apply Hri, dos_artistas_integrity.
Defined.

(** X9.  Deleting a collective that has a key returns and cascades to what
    hangs from the collective: afterwards no collective of that key, no image
    and no social link of the collective, no membership in it and no genre
    attached to it is stored.  Its administrator and its members are not
    deleted: users, artist profiles, their images and links, and genres are
    untouched; referential integrity is kept.  A collective without a key
    cannot be deleted: [ValueError], nothing written. *)
Theorem collective_delete_cascades (st : Store) (a : Agrupacion) :
  (∀ k, agrupacion_pk a = Some k →
     ∃ st',
       Agrupacion_delete a st = (Return tt, st')
       ∧ (∀ q, q ∈ agrupaciones st' → agrupacion_pk q ≠ Some k)
       ∧ (∀ i, i ∈ group_images st' → gimg_agrupacion i ≠ k)
       ∧ (∀ s, s ∈ group_socials st' → gsoc_agrupacion s ≠ k)
       ∧ (∀ am, am ∈ agrupacion_miembros st' → am.1 ≠ k)
       ∧ (∀ ag, ag ∈ agrupacion_generos st' → ag.1 ≠ k)
       ∧ users st' = users st
       ∧ artist_profiles st' = artist_profiles st
       ∧ generos st' = generos st
       ∧ artist_images st' = artist_images st
       ∧ artist_socials st' = artist_socials st
       ∧ (referential_integrity st → referential_integrity st'))
  ∧ (agrupacion_pk a = None →
     Agrupacion_delete a st = (Raise ValueError, st)).
Proof.
  split; [|intros Hpk; unfold Agrupacion_delete; by rewrite Hpk].
  intros k Hpk. unfold Agrupacion_delete. rewrite Hpk.
  destruct (collect_Agrupacion [a] st) as [o st'] eqn:Hc.
  assert (o = Return tt) as ->.
  { destruct (collect_Agrupacion_returns [a] st) as (? & Heq & _).
    congruence. }
  exists st'. split; [done|].
  split; [|split; [|split; [|split; [|split]]]].
  6: { repeat (match goal with |- _ = _ ∧ _ => split end);
         try (intros Hri;
              exact (collect_Agrupacion_integrity [a] st st' Hri Hc));
         revert Hc; unfold collect_Agrupacion, delete_rows, on_delete; run;
         by intros [= <-]. }
  all: revert Hc; unfold collect_Agrupacion, delete_rows, on_delete; run;
    intros [= <-]; simpl; rewrite Hpk; unfold exclude, qfilter.
  - intros q [Hq _]%list_elem_of_filter Heq. apply Hq. rewrite Heq. left.
  - intros i Hi Heq.
    apply (delete_rows_gone GroupImage_table) in Hi. apply Hi.
    rewrite Heq. left.
  - intros s Hs Heq.
    apply (delete_rows_gone GroupSocial_table) in Hs. apply Hs.
    rewrite Heq. left.
  - intros am [Ham _]%list_elem_of_filter Heq. apply Ham. rewrite Heq. left.
  - intros ag [Hag _]%list_elem_of_filter Heq. apply Hag. rewrite Heq. left.
Qed.

Lemma collective_delete_cascades_witness :
  ∃ st',
    Agrupacion_delete trovadores dos_artistas = (Return tt, st')
    ∧ (∀ am, am ∈ agrupacion_miembros st' → am.1 ≠ 1%Z)
    ∧ artist_profiles st' = artist_profiles dos_artistas
    ∧ referential_integrity st'.
Proof.
  destruct (collective_delete_cascades dos_artistas trovadores) as [Hdel _].
  destruct (Hdel 1%Z eq_refl)
    as (st' & Hd & _ & _ & _ & Hm & _ & _ & Hp & _ & _ & _ & Hri).
  exists st'. split; [exact Hd|]. split; [exact Hm|].
  split; [exact Hp|]. apply Hri, dos_artistas_integrity.
Defined.

(** X10.  A line is protected exactly by its genres, and a successful
    deletion of a line leaves no dangling reference.  [delete] of a line
    that has a key raises [ProtectedError] if and only if some genre refers
    to the line; and when it returns, every foreign key and every
    many-to-many row of the store still names a stored row. *)
Theorem linea_delete_keeps_integrity (st : Store) (l : LineaArtistica)
    (k : Z) :
  linea_pk l = Some k →
  (LineaArtistica.delete l st = (Raise ProtectedError, st)
   ↔ ∃ g, g ∈ generos st ∧ genero_linea g = k)
  ∧ (∀ st', referential_integrity st →
            LineaArtistica.delete l st = (Return tt, st') →
            referential_integrity st').
Proof.
  intros Hpk. unfold LineaArtistica.delete. rewrite Hpk.
  rewrite bind_query, bind_eq. unfold on_delete.
  destruct (exists_ (qfilter (λ g, genero_linea g = k) (generos st))) eqn:He.
  - split; [|done]. split; [|done]. intros _.
    apply exists_spec in He as (g & (Hk & Hg)%list_elem_of_filter). eauto.
  - split.
    + split; [done|]. intros (g & Hg & Hk).
      assert (exists_ (qfilter (λ g, genero_linea g = k) (generos st)) = true)
        as Ht by (apply exists_spec; exists g; by apply list_elem_of_filter).
      congruence.
    + intros st' [Hgl Hau Had Hai Hgi Has Hgs Hag Ham Hgg].
      unfold ret, delete_rows, write. intros [= <-].
      split; simpl; try done.
      intros g Hg. destruct (Hgl g Hg) as (r & Hr & Hkr).
      exists r. split; [|done]. apply list_elem_of_filter. split; [|done].
      unfold exclude. simpl in *. rewrite Hpk, Hkr, list_elem_of_singleton.
      intros [= Heq].
      assert (exists_ (qfilter (λ g, genero_linea g = k) (generos st)) = true)
        as Ht by (apply exists_spec; exists g; by apply list_elem_of_filter).
      congruence.
Qed.

Lemma catalogo_integrity : referential_integrity catalogo.
Proof. check_integrity. Qed.

Lemma linea_delete_keeps_integrity_witness :
  referential_integrity (set_lineas [musica] catalogo).
Proof.
  destruct (linea_delete_keeps_integrity catalogo danza 2%Z eq_refl)
    as [_ Hri].
  apply Hri; [exact catalogo_integrity|]. vm_compute. reflexivity.
Defined.

(** A line no genre refers to is deleted. *)
Lemma linea_delete_unreferenced (st : Store) (l : LineaArtistica) (j : Z) :
  linea_pk l = Some j →
  (∀ g, g ∈ generos st → genero_linea g ≠ j) →
  LineaArtistica.delete l st
  = (Return tt, set_lineas (filter (λ r, linea_pk r ≠ Some j) (lineas st)) st).
Proof.
  intros Hpk Hnone. unfold LineaArtistica.delete. rewrite Hpk.
  rewrite bind_query, bind_eq. unfold on_delete.
  destruct (exists_ _) eqn:He.
  - apply exists_spec in He as (g & (Hk & Hg)%list_elem_of_filter).
    by apply Hnone in Hg.
  - unfold ret, delete_rows, write, exclude. simpl. rewrite Hpk.
    do 2 f_equal. apply list_filter_iff. intros r.
    by rewrite list_elem_of_singleton.
Qed.

(** X11.  Deleting a genre that has a key returns: afterwards no genre of
    that key is stored and no profile and no collective has the genre
    attached, while profiles, collectives and artistic lines are untouched
    and referential integrity is kept.  And it lifts the protection of the
    line: if every genre of a line had that key, the line can be deleted
    next. *)
Theorem genre_delete_unprotects (st : Store) (g : Genero) (k : Z) :
  genero_pk g = Some k →
  ∃ st',
    Genero_delete g st = (Return tt, st')
    ∧ (∀ x, x ∈ generos st' → genero_pk x ≠ Some k)
    ∧ (∀ ag, ag ∈ artist_generos st' → ag.2 ≠ k)
    ∧ (∀ ag, ag ∈ agrupacion_generos st' → ag.2 ≠ k)
    ∧ artist_profiles st' = artist_profiles st
    ∧ agrupaciones st' = agrupaciones st
    ∧ lineas st' = lineas st
    ∧ (referential_integrity st → referential_integrity st')
    ∧ (∀ l j, linea_pk l = Some j →
         (∀ x, x ∈ generos st → genero_linea x = j → genero_pk x = Some k) →
         LineaArtistica.delete l st'
         = (Return tt,
            set_lineas (filter (λ r, linea_pk r ≠ Some j) (lineas st')) st')).
Proof.
  intros Hpk. unfold Genero_delete. rewrite Hpk.
  unfold delete_rows. run. eexists. split; [reflexivity|].
  simpl. rewrite Hpk. unfold exclude.
  split; [|split; [|split; [|split; [|split; [|split; [|split]]]]]];
    try done.
  - intros x [Hx _]%list_elem_of_filter Heq. apply Hx. rewrite Heq. left.
  - by intros ag [Hag _]%list_elem_of_filter.
  - by intros ag [Hag _]%list_elem_of_filter.
  - intros [Hgl Hau Had Hai Hgi Has Hgs Hag Ham Hgg].
    assert (∀ j, j ≠ k → row_exists Genero_table j (generos st) →
            row_exists Genero_table j
              (filter (λ x, genero_pk x ∉ [Some k]) (generos st))) as Hkeep.
    { intros j Hj (r & Hr & Hkr). exists r. split; [|done].
      apply list_elem_of_filter. split; [|done]. simpl in Hkr.
      rewrite Hkr, list_elem_of_singleton. by intros [= ?]. }
    split; simpl; try done.
    + intros x [_ Hx]%list_elem_of_filter. by apply Hgl.
    + intros ag [Hne Hin]%list_elem_of_filter.
      split; [by apply Hag|]. apply Hkeep; [done|]. by apply Hag.
    + intros ag [Hne Hin]%list_elem_of_filter.
      split; [by apply Hgg|]. apply Hkeep; [done|]. by apply Hgg.
  - intros l j Hl Honly.
    rewrite (linea_delete_unreferenced _ l j Hl); [done|].
    simpl. intros x [Hx Hin]%list_elem_of_filter Hj.
    apply Hx. rewrite (Honly x Hin Hj). left.
Qed.

Lemma genre_delete_unprotects_witness :
  ∃ st',
    Genero_delete rock catalogo = (Return tt, st')
    ∧ LineaArtistica.delete musica st'
      = (Return tt, set_lineas [danza] st').
Proof.
  destruct (genre_delete_unprotects catalogo rock 1%Z eq_refl)
    as (st' & Hdel & _ & _ & _ & _ & _ & Hl & _ & Hline).
  exists st'. split; [exact Hdel|].
  rewrite (Hline musica 1%Z eq_refl).
  - rewrite Hl. reflexivity.
  - intros x Hx%list_elem_of_singleton _. by subst x.
Defined.

(** ** Unique columns of the other classes *)



(** ** One profile per user *)

(** X13.  [ArtistProfile.user] is one-to-one.  A new profile for a user who
    already has one is refused with [IntegrityError], nothing written.  And
    on a table of profiles in which no key is repeated and no two profiles
    have the same user, after any save of a profile that returns this is
    still so, and the user of the saved profile exists. *)
Theorem one_profile_per_user (st : Store) (p : ArtistProfile) :
  (artist_pk p = None →
   (∃ o, o ∈ artist_profiles st ∧ artist_user o = artist_user p) →
   ArtistProfile.save p st = (Raise IntegrityError, st))
  ∧ (∀ p' st',
       NoDup (artist_pk <$> artist_profiles st) →
       NoDup (artist_user <$> artist_profiles st) →
       ArtistProfile.save p st = (Return p', st') →
       NoDup (artist_pk <$> artist_profiles st')
       ∧ NoDup (artist_user <$> artist_profiles st')
       ∧ p' ∈ artist_profiles st'
       ∧ row_exists CustomUser_table (artist_user p') (users st')).
Proof.
  unfold ArtistProfile.save. split.
  - intros Hpk (o & Ho & Huser).
    rewrite (Model_save_new ArtistProfile_table) by done. simpl.
    unfold ArtistProfile_constraints.
    rewrite (unique_clash_new ArtistProfile_table artist_user _ o) by done.
    by rewrite andb_false_r.
  - intros p' st' Hkeys Husers. rewrite Model_save_eq. simpl.
    match goal with
    | |- context [ArtistProfile_constraints ?x st] => set (self1 := x)
    end.
    unfold ArtistProfile_constraints.
    destruct (references _ _ _) eqn:Href; [|done].
    destruct (unique _ _ _ _) eqn:Hu; [|done]. simpl.
    intros [= <- <-]. simpl.
    split; [by apply (upsert_keys ArtistProfile_table)|].
    split; [by apply (upsert_unique_col ArtistProfile_table artist_user)|].
    split; [apply upsert_elem|]. by apply references_true.
Qed.

Lemma one_profile_per_user_witness :
  ArtistProfile.save (mkArtistProfile None 1 (Some "Ana") None None)
    dos_artistas
  = (Raise IntegrityError, dos_artistas).
Proof.
  destruct (one_profile_per_user dos_artistas
              (mkArtistProfile None 1 (Some "Ana") None None)) as [Hclash _].
  apply Hclash; [reflexivity|]. exists perfil. split; [left|reflexivity].
Defined.

(** ** Referential integrity under saves *)

Lemma Model_save_returns {A} (T : Table A) (c : A → Store → bool)
    (self self' : A) (st st' : Store) :
  Model_save T c self st = (Return self', st') →
  c self' st = true ∧ st' = set_rows T (upsert T self' (rows T st)) st.
Proof.
  rewrite Model_save_eq. simpl.
  match goal with
  | |- context [c ?x st] => destruct (c x st) eqn:Hc; [|done]
  end.
  by intros [= <- <-].
Qed.

(** Writing a row takes no key away from the table. *)
Lemma row_exists_upsert {A} (T : Table A) (fk : Z) (self : A) (tbl : list A) :
  row_exists T fk tbl → row_exists T fk (upsert T self tbl).
Proof.
  intros (r & Hr & Hk). unfold upsert. case_bool_decide as Hin.
  - exists (if bool_decide (pk T r = pk T self) then self else r). split.
    + apply list_elem_of_fmap. eauto.
    + case_bool_decide; congruence.
  - exists r. split; [|done]. apply elem_of_app. by left.
Qed.

(** The three ways the written table shows up in [referential_integrity]:
    as the table of the rows that refer, as the table referred to, and as
    one side of a many-to-many table. *)
Ltac integrity_after_upsert T :=
  match goal with
  | |- ∀ x, x ∈ upsert T _ _ → _ =>
      let x := fresh "x" in
      let Hx := fresh "Hx" in
      intros x Hx; apply (upsert_inv T) in Hx as [Hx| ->]; eauto
  | |- ∀ x, _ → _ ∧ _ =>
      let x := fresh "x" in
      let Hx := fresh "Hx" in
      intros x Hx; split; try apply (row_exists_upsert T);
      match goal with H : _ |- _ => by apply H end
  | |- ∀ x, _ → row_exists T _ (upsert T _ _) =>
      let x := fresh "x" in
      let Hx := fresh "Hx" in
      intros x Hx; apply (row_exists_upsert T); eauto
  end.

(** X14.  No save leaves a dangling reference.  If every foreign key and
    every many-to-many row of the store names a stored row, the same is true
    after any save that returns, of an image of an artist or of a collective,
    of a collective, a profile, a user, a social link, a genre or an artistic
    line, new or stored. *)
Theorem saves_keep_integrity (slugify : string → string) (st st' : Store) :
  referential_integrity st →
  (∀ a a', ArtistImage.save a st = (Return a', st') →
           referential_integrity st')
  ∧ (∀ g g', GroupImage.save g st = (Return g', st') →
             referential_integrity st')
  ∧ (∀ c c', Agrupacion.save slugify c st = (Return c', st') →
             referential_integrity st')
  ∧ (∀ p p', ArtistProfile.save p st = (Return p', st') →
             referential_integrity st')
  ∧ (∀ u u', CustomUser.save u st = (Return u', st') →
             referential_integrity st')
  ∧ (∀ s s', ArtistSocial_save s st = (Return s', st') →
             referential_integrity st')
  ∧ (∀ s s', GroupSocial_save s st = (Return s', st') →
             referential_integrity st')
  ∧ (∀ g g', Genero_save g st = (Return g', st') →
             referential_integrity st')
  ∧ (∀ l l', LineaArtistica_save l st = (Return l', st') →
             referential_integrity st').
Proof.
  intros [Hgl Hau Had Hai Hgi Has Hgs Hag Ham Hgg]. repeat apply conj.
  - intros a a' (_ & Hown & ->)%ArtistImage_save_returns.
    split; simpl; try done. integrity_after_upsert ArtistImage_table.
  - intros g g' (_ & Hown & ->)%GroupImage_save_returns.
    split; simpl; try done. integrity_after_upsert GroupImage_table.
  - intros c c'. unfold Agrupacion.save. rewrite bind_eq.
    destruct (derive_slug_returns slugify c st) as (c1 & -> & _).
    rewrite Model_save_auto_eq. intros [Hc ->]%Model_save_returns.
    apply andb_true_iff in Hc as [_ Hadm%references_true].
    split; simpl; try done; integrity_after_upsert Agrupacion_table.
  - intros p p' [Hc ->]%Model_save_returns.
    apply andb_true_iff in Hc as [Husr%references_true _].
    split; simpl; try done; integrity_after_upsert ArtistProfile_table.
  - intros u u' [_ ->]%Model_save_returns.
    split; simpl; try done; integrity_after_upsert CustomUser_table.
  - intros s s' [Hc%references_true ->]%Model_save_returns.
    split; simpl; try done; integrity_after_upsert ArtistSocial_table.
  - intros s s' [Hc%references_true ->]%Model_save_returns.
    split; simpl; try done; integrity_after_upsert GroupSocial_table.
  - intros g g' [Hc ->]%Model_save_returns.
    apply andb_true_iff in Hc as [Hlin%references_true _].
    split; simpl; try done; integrity_after_upsert Genero_table.
  - intros l l' [_ ->]%Model_save_returns.
    split; simpl; try done; integrity_after_upsert LineaArtistica_table.
Qed.

Lemma saves_keep_integrity_witness :
  ∃ st',
    ArtistImage.save (mkArtistImage None 2 "artists/images/c.jpg" None 1)
      dos_artistas
    = (Return (mkArtistImage (Some 3%Z) 2 "artists/images/c.jpg" None 1), st')
    ∧ referential_integrity st'.
Proof.
  eexists. split; [vm_compute; reflexivity|].
  destruct (saves_keep_integrity Text.slugify dos_artistas
              (ArtistImage.save
                 (mkArtistImage None 2 "artists/images/c.jpg" None 1)
                 dos_artistas).2 dos_artistas_integrity) as [Ha _].
  apply (Ha (mkArtistImage None 2 "artists/images/c.jpg" None 1)
            (mkArtistImage (Some 3%Z) 2 "artists/images/c.jpg" None 1)).
  vm_compute. reflexivity.
Defined.

(** ** The platforms of social links *)

(** X15.  The platform choices are sound for the column that stores them
    ([max_length=30], lines 178 and 187): the stored values of two different
    platforms are different, every stored value is at most 30 characters
    long, and it is the label of the platform in lower case. *)
Theorem platform_values_sound :
  Inj (=) (=) platform_value
  ∧ (∀ p, String.length (platform_value p) ≤ 30)
  ∧ (∀ p, String.string_of_list_ascii
            (Text.lower <$> String.list_ascii_of_string (platform_label p))
          = platform_value p).
Proof.
  split; [|split].
  - intros p q. destruct p, q; simpl; intros H; try done; discriminate H.
  - intros p. destruct p; simpl; lia.
  - intros p. destruct p; reflexivity.
Qed.

(** ** Keys and unique columns as invariants *)

(** X16.  Image saves keep the key column.  On a table of images in which
    every key is a key of the database (not 0) and none is repeated, after
    any save that returns of an image that has no key or has such a key, this
    is still so.  The same holds of [ArtistImage] and of [GroupImage]. *)
Theorem image_save_keeps_key_column (st st' : Store) :
  (∀ a a',
     primary_key ArtistImage_table (artist_images st) →
     aimg_pk a = None ∨ stored_key (aimg_pk a) →
     ArtistImage.save a st = (Return a', st') →
     primary_key ArtistImage_table (artist_images st')
     ∧ stored_key (aimg_pk a'))
  ∧ (∀ g g',
       primary_key GroupImage_table (group_images st) →
       gimg_pk g = None ∨ stored_key (gimg_pk g) →
       GroupImage.save g st = (Return g', st') →
       primary_key GroupImage_table (group_images st')
       ∧ stored_key (gimg_pk g')).
Proof.
  split.
  - intros a a' Hkeys Ha. unfold ArtistImage.save. rewrite bind_eq.
    destruct (ArtistImage_clean_cases a st) as [[e ->]| ->]; [done|].
    intros Hsave.
    pose proof (Model_save_primary_key _ _ _ _ _ _ ArtistImage_table_laws
                  Hkeys Ha Hsave) as Hkeys'.
    split; [done|]. destruct Hkeys' as [Hall _].
    apply Model_save_returns in Hsave as [_ ->]. simpl in Hall.
    rewrite Forall_forall in Hall. apply Hall, upsert_elem.
  - intros g g' Hkeys Hg. unfold GroupImage.save. rewrite bind_eq.
    destruct (GroupImage_clean_cases g st) as [[e ->]| ->]; [done|].
    intros Hsave.
    pose proof (Model_save_primary_key _ _ _ _ _ _ GroupImage_table_laws
                  Hkeys Hg Hsave) as Hkeys'.
    split; [done|]. destruct Hkeys' as [Hall _].
    apply Model_save_returns in Hsave as [_ ->]. simpl in Hall.
    rewrite Forall_forall in Hall. apply Hall, upsert_elem.
Qed.

Lemma image_save_keeps_key_column_witness :
  primary_key ArtistImage_table
    (artist_images
       (set_artist_images (foto ∘ Some <$> [1; 2; 3; 4; 5]%Z)
          (gallery [1; 2; 3; 4]%Z)))
  ∧ stored_key (aimg_pk (foto (Some 5%Z))).
Proof.
  destruct (image_save_keeps_key_column (gallery [1; 2; 3; 4]%Z)
              (set_artist_images (foto ∘ Some <$> [1; 2; 3; 4; 5]%Z)
                 (gallery [1; 2; 3; 4]%Z))) as [Ha _].
  apply (Ha (foto None) (foto (Some 5%Z))).
  - split.
    + repeat (apply List.Forall_cons; [by eexists|]). apply List.Forall_nil.
    + apply (bool_decide_unpack _). vm_compute. exact I.
  - by left.
  - vm_compute. reflexivity.
Defined.

(** X17.  User names and emails stay unique.  On a table of users in which
    no key, no user name and no email is repeated, after any save of a user
    that returns, new or stored, none is repeated. *)
Theorem user_columns_unique (st st' : Store) (u u' : CustomUser) :
  NoDup (user_pk <$> users st) →
  NoDup (username <$> users st) →
  NoDup (email <$> users st) →
  CustomUser.save u st = (Return u', st') →
  NoDup (user_pk <$> users st')
  ∧ NoDup (username <$> users st')
  ∧ NoDup (email <$> users st')
  ∧ u' ∈ users st'.
Proof.
  intros Hkeys Hnames Hemails [Hc ->]%Model_save_returns.
  apply andb_true_iff in Hc as [Hun Hue]. simpl.
  split; [by apply (upsert_keys CustomUser_table)|].
  split; [by apply (upsert_unique_col CustomUser_table username)|].
  split; [by apply (upsert_unique_col CustomUser_table email)|].
  apply upsert_elem.
Qed.

Lemma user_columns_unique_witness :
  NoDup (email <$> users
           (set_users [ana; mkCustomUser (Some 2%Z) "beto" "beto@example.org"]
              registro)).
Proof.
  refine (proj1 (proj2 (proj2
            (user_columns_unique registro _
               (mkCustomUser None "beto" "beto@example.org")
               (mkCustomUser (Some 2%Z) "beto" "beto@example.org") _ _ _ _)))).
  - apply (bool_decide_unpack _). vm_compute. exact I.
  - apply (bool_decide_unpack _). vm_compute. exact I.
  - apply (bool_decide_unpack _). vm_compute. exact I.
  - vm_compute. reflexivity.
Defined.

(** ** Edge cases of the slug *)

(** X18.  A name without a slug character.  When [slugify] gives the empty
    string for the name of a new collective saved with an empty slug (its
    administrator existing), the first candidate is the empty string itself:
    if no stored collective has an empty slug the collective is stored with
    an empty slug, and if one has, and none has the slug [-1], it is stored
    with the slug [-1]. *)
Theorem name_without_slug_characters (slugify : string → string) (st : Store)
    (self : Agrupacion) :
  slug self = "" → agrupacion_pk self = None →
  row_exists CustomUser_table (administrador self) (users st) →
  slugify (nombre self) = "" →
  (¬ slug_taken "" st →
   ∃ self', Agrupacion.save slugify self st
            = (Return self', set_agrupaciones (agrupaciones st ++ [self']) st)
            ∧ slug self' = "")
  ∧ (slug_taken "" st → ¬ slug_taken "-1" st →
     ∃ self', Agrupacion.save slugify self st
              = (Return self', set_agrupaciones (agrupaciones st ++ [self']) st)
              ∧ slug self' = "-1").
Proof.
  intros Hs Hpk Hadm Hname. split.
  - intros Hfree.
    destruct (Agrupacion_save_appends slugify self st 0 Hs Hpk Hadm)
      as (self' & Hsave & Hslug).
    + by rewrite Hname.
    + intros m Hm. lia.
    + rewrite Hname in Hslug. eauto.
  - intros Htaken Hfree.
    destruct (Agrupacion_save_appends slugify self st 1 Hs Hpk Hadm)
      as (self' & Hsave & Hslug).
    + by rewrite Hname.
    + intros m Hm. replace m with 0 by lia. by rewrite Hname.
    + rewrite Hname in Hslug. eauto.
Qed.

Lemma name_without_slug_characters_witness :
  ∃ self',
    Agrupacion.save Text.slugify (nueva "!!!") registro
    = (Return self', set_agrupaciones (agrupaciones registro ++ [self']) registro)
    ∧ slug self' = "".
Proof.
  destruct (name_without_slug_characters Text.slugify registro (nueva "!!!")
              eq_refl eq_refl) as [Hfirst _].
  - exists ana. split; [left|reflexivity].
  - reflexivity.
  - apply Hfirst. intros (r & Hr & _). by apply elem_of_nil in Hr.
Defined.

(** Writing a row whose key is in the table replaces the rows that have the
    key and keeps the others. *)
Lemma upsert_stored {A} (T : Table A) (self r : A) (tbl : list A) :
  pk T self ∈ pk T <$> tbl →
  length (upsert T self tbl) = length tbl
  ∧ (r ∈ upsert T self tbl ↔ r = self ∨ (r ∈ tbl ∧ pk T r ≠ pk T self)).
Proof.
  intros Hin. unfold upsert. rewrite bool_decide_eq_true_2 by done.
  split; [by rewrite length_fmap|]. rewrite list_elem_of_fmap. split.
  - intros (x & -> & Hx). case_bool_decide; eauto.
  - intros [->|[Hr Hk]].
    + apply list_elem_of_fmap in Hin as (x & Hk & Hx).
      exists x. by rewrite bool_decide_eq_true_2.
    + exists r. by rewrite bool_decide_eq_false_2.
Qed.

(** X19.  Saving again the collective that a save returned.  When a save
    of a collective returns a collective whose slug is not empty, saving
    what it returned into the store it left, when the clock reads [t],
    returns that collective with [actualizado_en] set to [t] and nothing
    else changed.  In the table its row is replaced by it; the other rows
    are as they were, no row is added, and no other table is written. *)
Theorem collective_resave_updates_time (slugify : string → string)
    (st st' : Store) (self self' : Agrupacion) (t : Z) :
  Agrupacion.save slugify self st = (Return self', st') →
  slug self' ≠ "" →
  ∃ self'' st'',
    Agrupacion.save slugify self' (set_now t st') = (Return self'', st'')
    ∧ self'' = mkAgrupacion (agrupacion_pk self') (nombre self') (slug self')
                 (administrador self') (agrupacion_descripcion self')
                 (agrupacion_perfil_imagen self') (creado_en self') t
    ∧ (∀ r, r ∈ agrupaciones st''
            ↔ r = self''
              ∨ (r ∈ agrupaciones st' ∧ agrupacion_pk r ≠ agrupacion_pk self'))
    ∧ length (agrupaciones st'') = length (agrupaciones st')
    ∧ st'' = set_agrupaciones (agrupaciones st'') (set_now t st').
Proof.
  unfold Agrupacion.save at 1. rewrite bind_eq.
  destruct (derive_slug_returns slugify self st) as (self1 & -> & _).
  rewrite Model_save_auto_eq. intros Hsave Hslug.
  assert (is_Some (agrupacion_pk self')) as [k Hk].
  { revert Hsave. rewrite Model_save_eq. cbv zeta.
    match goal with
    | |- context [Agrupacion_constraints ?x st] =>
        destruct (Agrupacion_constraints x st); [|done]
    end.
    intros [= <- _]. simpl.
    destruct (agrupacion_pk self1) as [k1|] eqn:Hk1; simpl; rewrite ?Hk1;
      eauto. }
  apply Model_save_returns in Hsave as [Hc ->].
  apply andb_true_iff in Hc as [Hu Hadm].
  set (tbl := upsert Agrupacion_table self' (agrupaciones st)).
  assert (agrupacion_pk self' ∈ agrupacion_pk <$> tbl) as Hin
    by (apply list_elem_of_fmap_2, upsert_elem).
  set (self'' := mkAgrupacion (agrupacion_pk self') (nombre self') (slug self')
                   (administrador self') (agrupacion_descripcion self')
                   (agrupacion_perfil_imagen self') (creado_en self') t).
  exists self'',
    (set_agrupaciones (upsert Agrupacion_table self'' tbl)
       (set_now t (set_agrupaciones tbl st))).
  assert (agrupacion_pk self'' ∈ agrupacion_pk <$> tbl) as Hin'' by done.
  split; [|split; [done|split; [|split; [|done]]]].
  - unfold Agrupacion.save. rewrite bind_eq.
    match goal with
    | |- context [Agrupacion.derive_slug slugify self' ?s] =>
        destruct (derive_slug_returns slugify self' s) as (self2 & -> & Hsame)
    end.
    rewrite (Hsame Hslug), Model_save_auto_eq.
    assert (adding Agrupacion_table self' tbl = false) as Hadd.
    { unfold adding. simpl. rewrite Hk. rewrite <-Hk.
      by rewrite bool_decide_eq_true_2. }
    simpl. fold tbl. rewrite Hadd. fold self''.
    rewrite Model_save_eq. simpl. rewrite Hk.
    unfold Agrupacion_constraints. simpl. fold tbl. rewrite Hadm, andb_true_r.
    rewrite (proj2 (unique_spec Agrupacion_table slug self'' tbl)); [done|].
    intros r [Hr| ->]%upsert_inv Hs; [|done].
    by apply (proj1 (unique_spec Agrupacion_table slug _ _) Hu).
  - intros r. simpl.
    apply (upsert_stored Agrupacion_table self'' r tbl Hin'').
  - simpl. apply (upsert_stored Agrupacion_table self'' self'' tbl Hin'').
Qed.

Lemma collective_resave_updates_time_witness :
  ∃ self'' st'',
    Agrupacion.save Text.slugify
      (mkAgrupacion (Some 2%Z) "Los Trovadores" "los-trovadores-1" 1 None None 0 0)
      (set_now 9
         (set_agrupaciones
            [trovadores;
             mkAgrupacion (Some 2%Z) "Los Trovadores" "los-trovadores-1" 1
               None None 0 0]
            (gallery [])))
    = (Return self'', st'')
    ∧ self'' = mkAgrupacion (Some 2%Z) "Los Trovadores" "los-trovadores-1" 1
                 None None 0 9
    ∧ length (agrupaciones st'') = 2.
Proof.
  destruct (collective_resave_updates_time Text.slugify (gallery [])
              (set_agrupaciones
                 [trovadores;
                  mkAgrupacion (Some 2%Z) "Los Trovadores" "los-trovadores-1" 1
                    None None 0 0]
                 (gallery []))
              (nueva "Los Trovadores")
              (mkAgrupacion (Some 2%Z) "Los Trovadores" "los-trovadores-1" 1
                 None None 0 0) 9)
    as (self'' & st'' & Hsave & Hrow & _ & Hlen & _).
  - vm_compute. reflexivity.
  - done.
  - exists self'', st''. split; [exact Hsave|]. split; [exact Hrow|exact Hlen].
Defined.
